(** * The eskip tokenizer and the filter chain of skipper

    A shallow embedding of [eskip/lexer.go] and [filters/chain/chain.go],
    with the parts of Go's standard library they call ([regexp], [fmt],
    [strings], [strconv]), and the properties of the specification that
    are stated about them.

    Conventions
    - a Go [string] is a sequence of bytes: [list ascii];
    - a Go [int] is a 64-bit two's complement integer: [Z] with [wrap64]
      written at every addition;
    - a run-time panic is [None] in the [option] monad;
    - a nil slice is the empty list. *)

From Stdlib Require Import ZArith Lia Bool List Ascii String DecimalString QArith.
From Stdlib Require Import Floats.SpecFloat.
From stdpp Require Import base option list gmap strings.

#[local] Open Scope Z_scope.
#[local] Open Scope list_scope.

(* ===================================================================== *)
(** * Strings and formatting *)
(* ===================================================================== *)

Abbreviation gostring := (list ascii).

(** A string literal of the source, as bytes. *)
Definition bytes (s : string) : gostring := list_ascii_of_string s.

Definition dquote : ascii := "034"%char.
Definition backslash : ascii := "092"%char.
Definition backtick : ascii := "096"%char.
Definition slash : ascii := "047"%char.
Definition CR : ascii := "013"%char.
Definition LF : ascii := "010"%char.

(** [len(s)] as a Go [int]. *)
Definition len (s : gostring) : Z := Z.of_nat (length s).

Definition len_list {A} (s : list A) : Z := Z.of_nat (length s).

(** Two's complement wrap-around of a 64-bit [int]. *)
Definition wrap64 (z : Z) : Z := (z + 2 ^ 63) mod 2 ^ 64 - 2 ^ 63.

(** [strconv.Itoa] / the [%d] verb: decimal digits, a minus sign when
    negative. *)
Definition Itoa (z : Z) : gostring :=
  bytes (NilZero.string_of_int (Z.to_int z)).

(** [strings.Join]. *)
Fixpoint Join (elems : list gostring) (sep : gostring) : gostring :=
  match elems with
  | [] => []
  | [e] => e
  | e :: rest => e ++ sep ++ Join rest sep
  end.

(** [strings.Index(s, c) >= 0] for a one-byte string [c]: the byte occurs
    in [s]. *)
Definition contains (s : gostring) (c : ascii) : bool :=
  existsb (Ascii.eqb c) s.

(** Arguments of [fmt.Sprintf]. *)
Inductive fmtArg :=
| ArgS (s : gostring)
| ArgD (z : Z).

(** [fmt.Sprintf] for the verbs the source uses, [%s] and [%d], each
    applied to an operand of its own type. Every other byte of the format
    is copied. *)
Fixpoint Sprintf (format : gostring) (args : list fmtArg) : gostring :=
  match format with
  | [] => []
  | c :: rest =>
      if Ascii.eqb c "%" then
        match rest, args with
        | v :: rest', ArgS s :: args' =>
            if Ascii.eqb v "s" then s ++ Sprintf rest' args'
            else c :: Sprintf rest args
        | v :: rest', ArgD z :: args' =>
            if Ascii.eqb v "d" then Itoa z ++ Sprintf rest' args'
            else c :: Sprintf rest args
        | _, _ => c :: Sprintf rest args
        end
      else c :: Sprintf rest args
  end.

(** [s[lo:hi]]; panics unless [0 <= lo <= hi <= len(s)]. *)
Definition slice (s : gostring) (lo hi : Z) : option gostring :=
  if (0 <=? lo) && (lo <=? hi) && (hi <=? len s)
  then Some (take (Z.to_nat (hi - lo)) (drop (Z.to_nat lo) s))
  else None.

(* ===================================================================== *)
(** * Go's [regexp] package *)
(* ===================================================================== *)

Module regexp.

(** ** Syntax trees ([regexp/syntax.Regexp]) *)

(** A character class: a literal, [.] (any character but a line feed, as
    no [s] flag is set), or a bracket expression or Perl class as a list
    of inclusive ranges, possibly negated. *)
Inductive charClass :=
| Literal (c : ascii)
| AnyCharNotNL
| Ranges (negated : bool) (rs : list (ascii * ascii)).

Inductive Regexp :=
| OpEmptyMatch
| OpCharClass (cl : charClass)
| OpBeginText
| OpEndText
| OpCapture (index : nat) (sub : Regexp)
| OpStar (sub : Regexp)
| OpPlus (sub : Regexp)
| OpQuest (sub : Regexp)
| OpConcat (sub1 sub2 : Regexp)
| OpAlternate (sub1 sub2 : Regexp).

Definition in_range (c : ascii) (r : ascii * ascii) : bool :=
  (N_of_ascii (fst r) <=? N_of_ascii c)%N && (N_of_ascii c <=? N_of_ascii (snd r))%N.

(** The pattern works on bytes here. Go decodes UTF-8, and the two agree
    on this lexer's pattern: every byte of a multi-byte character and
    every invalid byte is outside all of its literals and positive
    classes and inside [.] and its negated classes. *)
Definition class_matches (cl : charClass) (c : ascii) : bool :=
  match cl with
  | Literal d => Ascii.eqb c d
  | AnyCharNotNL => negb (Ascii.eqb c LF)
  | Ranges negated rs => xorb negated (existsb (in_range c) rs)
  end.

(** [\s], [\w] and [\d]. *)
Definition perl_space : charClass :=
  Ranges false [("009", "010"); ("012", "013"); (" ", " ")]%char.
Definition perl_word : charClass :=
  Ranges false [("0", "9"); ("A", "Z"); ("_", "_"); ("a", "z")]%char.
Definition perl_digit : charClass :=
  Ranges false [("0", "9")]%char.

(** ** Parsing ([regexp/syntax.Parse])

    The part of the syntax the lexer's pattern is written in: literals,
    escaped punctuation, [\s \w \d], [.], [^], [$], bracket expressions,
    capturing groups, alternation and the greedy [*], [+], [?]. Anything
    else is refused ([None]). Capturing groups are numbered from 1 in the
    order of their opening parentheses. *)

Definition is_punct (c : ascii) : bool :=
  let n := N_of_ascii c in
  ((33 <=? n) && (n <=? 47) || (58 <=? n) && (n <=? 64) ||
   (91 <=? n) && (n <=? 96) || (123 <=? n) && (n <=? 126))%N.

(** The character an escape sequence stands for, inside or outside
    brackets. *)
Definition escaped_char (c : ascii) : option ascii :=
  if is_punct c then Some c
  else if Ascii.eqb c "n" then Some LF
  else if Ascii.eqb c "r" then Some CR
  else if Ascii.eqb c "t" then Some "009"%char
  else if Ascii.eqb c "f" then Some "012"%char
  else None.

(** One character of a bracket expression. *)
Definition class_char (s : gostring) : option (ascii * gostring) :=
  match s with
  | [] => None
  | c :: s1 =>
      if Ascii.eqb c backslash then
        match s1 with
        | e :: s2 => d ← escaped_char e; Some (d, s2)
        | [] => None
        end
      else Some (c, s1)
  end.

(** The ranges of a bracket expression, up to the closing bracket. *)
Fixpoint class_items (fuel : nat) (first : bool) (s : gostring)
  : option (list (ascii * ascii) * gostring) :=
  match fuel with
  | O => None
  | S fuel =>
      match s with
      | [] => None
      | c :: s0 =>
          if Ascii.eqb c "]" && negb first then Some ([], s0)
          else
            '(lo, s1) ← class_char s;
            match s1 with
            | d :: s2 =>
                if Ascii.eqb d "-" && negb (match s2 with e :: _ => Ascii.eqb e "]" | [] => true end)
                then
                  '(hi, s3) ← class_char s2;
                  if (N_of_ascii hi <? N_of_ascii lo)%N then None
                  else '(rs, s4) ← class_items fuel false s3; Some ((lo, hi) :: rs, s4)
                else '(rs, s4) ← class_items fuel false s1; Some ((lo, lo) :: rs, s4)
            | [] => None
            end
      end
  end.

Definition parse_class (s : gostring) : option (charClass * gostring) :=
  match s with
  | c :: s1 =>
      if Ascii.eqb c "^"
      then '(rs, s2) ← class_items (S (length s1)) true s1; Some (Ranges true rs, s2)
      else '(rs, s2) ← class_items (S (length s)) true s; Some (Ranges false rs, s2)
  | [] => None
  end.

Definition is_repeat_op (c : ascii) : bool :=
  Ascii.eqb c "*" || Ascii.eqb c "+" || Ascii.eqb c "?" || Ascii.eqb c "{".

Definition concat (r1 r2 : Regexp) : Regexp :=
  match r2 with
  | OpEmptyMatch => r1
  | _ => OpConcat r1 r2
  end.

(** Recursive descent; [ncap] is the number of groups opened so far. *)
Fixpoint parse_alternate (fuel : nat) (s : gostring) (ncap : nat) {struct fuel}
  : option (Regexp * gostring * nat) :=
  match fuel with
  | O => None
  | S fuel =>
      '(r1, s1, n1) ← parse_concat fuel s ncap;
      match s1 with
      | c :: s2 =>
          if Ascii.eqb c "|"
          then '(r2, s3, n2) ← parse_alternate fuel s2 n1; Some (OpAlternate r1 r2, s3, n2)
          else Some (r1, s1, n1)
      | [] => Some (r1, s1, n1)
      end
  end
with parse_concat (fuel : nat) (s : gostring) (ncap : nat) {struct fuel}
  : option (Regexp * gostring * nat) :=
  match fuel with
  | O => None
  | S fuel =>
      match s with
      | [] => Some (OpEmptyMatch, s, ncap)
      | c :: _ =>
          if Ascii.eqb c "|" || Ascii.eqb c ")" then Some (OpEmptyMatch, s, ncap)
          else
            '(r1, s1, n1) ← parse_repeat fuel s ncap;
            '(r2, s2, n2) ← parse_concat fuel s1 n1;
            Some (concat r1 r2, s2, n2)
      end
  end
with parse_repeat (fuel : nat) (s : gostring) (ncap : nat) {struct fuel}
  : option (Regexp * gostring * nat) :=
  match fuel with
  | O => None
  | S fuel =>
      '(r, s1, n1) ← parse_atom fuel s ncap;
      match s1 with
      | c :: s2 =>
          if is_repeat_op c then
            if match s2 with d :: _ => is_repeat_op d | [] => false end then None
            else if Ascii.eqb c "*" then Some (OpStar r, s2, n1)
            else if Ascii.eqb c "+" then Some (OpPlus r, s2, n1)
            else if Ascii.eqb c "?" then Some (OpQuest r, s2, n1)
            else None
          else Some (r, s1, n1)
      | [] => Some (r, s1, n1)
      end
  end
with parse_atom (fuel : nat) (s : gostring) (ncap : nat) {struct fuel}
  : option (Regexp * gostring * nat) :=
  match fuel with
  | O => None
  | S fuel =>
      match s with
      | [] => None
      | c :: s1 =>
          if Ascii.eqb c "(" then
            match s1 with
            | d :: _ =>
                if Ascii.eqb d "?" then None
                else
                  '(r, s2, n2) ← parse_alternate fuel s1 (S ncap);
                  match s2 with
                  | e :: s3 => if Ascii.eqb e ")" then Some (OpCapture (S ncap) r, s3, n2) else None
                  | [] => None
                  end
            | [] => None
            end
          else if Ascii.eqb c "[" then
            '(cl, s2) ← parse_class s1; Some (OpCharClass cl, s2, ncap)
          else if Ascii.eqb c "." then Some (OpCharClass AnyCharNotNL, s1, ncap)
          else if Ascii.eqb c "^" then Some (OpBeginText, s1, ncap)
          else if Ascii.eqb c "$" then Some (OpEndText, s1, ncap)
          else if Ascii.eqb c backslash then
            match s1 with
            | e :: s2 =>
                if Ascii.eqb e "s" then Some (OpCharClass perl_space, s2, ncap)
                else if Ascii.eqb e "w" then Some (OpCharClass perl_word, s2, ncap)
                else if Ascii.eqb e "d" then Some (OpCharClass perl_digit, s2, ncap)
                else if is_punct e then Some (OpCharClass (Literal e), s2, ncap)
                else None
            | [] => None
            end
          else if is_repeat_op c || Ascii.eqb c ")" || Ascii.eqb c "|" then None
          else Some (OpCharClass (Literal c), s1, ncap)
      end
  end.

(** A compiled pattern ([regexp.Regexp]): the syntax tree and the number
    of capturing groups. *)
Record Compiled := {
  expr : Regexp;
  numSubexp : nat
}.

(** [regexp.Compile]; [None] is the error. *)
Definition Compile (pattern : gostring) : option Compiled :=
  '(r, rest, n) ← parse_alternate (4 * length pattern + 4) pattern 0;
  match rest with
  | [] => Some {| expr := r; numSubexp := n |}
  | _ :: _ => None
  end.

(** [regexp.MustCompile] panics where [Compile] fails. *)
Definition MustCompile (pattern : gostring) : option Compiled := Compile pattern.

(** ** Matching

    Go's matchers (the backtracker and the simulation of the compiled
    automaton) agree on the result: among all ways of matching at the
    leftmost possible start, the first one in the order in which a
    backtracking search tries them: the left branch of an alternation
    before the right one, one more iteration of a greedy repetition before
    leaving it. They never visit an instruction twice at one input
    position, so an iteration of a repetition that consumes nothing ends
    that path. [regexp/syntax] compiles [x*] as a loop when [x] cannot
    match the empty string and as [(x+)?] when it can: a first iteration
    that consumes nothing then falls through to what follows.

    The matcher is written with a continuation [k] for the rest of the
    pattern. A state is the remaining input and the capture positions
    recorded so far; positions are offsets in the whole input, of length
    [total]. *)

Abbreviation captures := (list (option (nat * nat))).
Definition cont := gostring -> captures -> option captures.

(** Whether a pattern can match the empty string ([frag.nullable] of
    [regexp/syntax/compile.go]). *)
Fixpoint nullable (r : Regexp) : bool :=
  match r with
  | OpEmptyMatch | OpBeginText | OpEndText => true
  | OpCharClass _ => false
  | OpCapture _ sub => nullable sub
  | OpStar _ | OpQuest _ => true
  | OpPlus sub => nullable sub
  | OpConcat sub1 sub2 => nullable sub1 && nullable sub2
  | OpAlternate sub1 sub2 => nullable sub1 || nullable sub2
  end.

Definition orelse (a : option captures) (b : unit -> option captures) : option captures :=
  match a with
  | Some x => Some x
  | None => b tt
  end.

Section Matcher.
Variable total : nat.

(** The loop of a star or plus, entered at [s]: one more iteration of
    [body] that consumes something and the loop again, or else what
    follows. [fuel] bounds the number of iterations and is at least the
    length of [s]. *)
Fixpoint loop (body : cont -> cont) (k : cont) (fuel : nat) (s : gostring) (caps : captures)
  : option captures :=
  match fuel with
  | O => k s caps
  | S fuel =>
      orelse
        (body (fun s' caps' =>
                 if (length s' <? length s)%nat then loop body k fuel s' caps' else None)
              s caps)
        (fun _ => k s caps)
  end.

(** [x+]: [x] once, then the loop; an iteration that consumed nothing
    finds the loop's entry already visited and leaves. *)
Definition plus (body : cont -> cont) (k : cont) (s : gostring) (caps : captures)
  : option captures :=
  body (fun s' caps' =>
          if (length s' <? length s)%nat then loop body k (length s') s' caps' else k s' caps')
       s caps.

Fixpoint run (r : Regexp) (k : cont) (s : gostring) (caps : captures) {struct r}
  : option captures :=
  match r with
  | OpEmptyMatch => k s caps
  | OpCharClass cl =>
      match s with
      | c :: s' => if class_matches cl c then k s' caps else None
      | [] => None
      end
  | OpBeginText => if (length s =? total)%nat then k s caps else None
  | OpEndText => match s with [] => k s caps | _ :: _ => None end
  | OpCapture i sub =>
      run sub (fun s' caps' =>
                 k s' (<[i := Some (total - length s, total - length s')%nat]> caps'))
          s caps
  | OpStar sub =>
      if nullable sub
      then orelse (plus (run sub) k s caps) (fun _ => k s caps)
      else loop (run sub) k (length s) s caps
  | OpPlus sub => plus (run sub) k s caps
  | OpQuest sub => orelse (run sub k s caps) (fun _ => k s caps)
  | OpConcat sub1 sub2 => run sub1 (run sub2 k) s caps
  | OpAlternate sub1 sub2 => orelse (run sub1 k s caps) (fun _ => run sub2 k s caps)
  end.
End Matcher.

(** A match of [re] in [input] that starts at offset [start]. *)
Definition match_at (re : Compiled) (input : gostring) (start : nat) : option captures :=
  run (length input) (expr re)
      (fun s' caps' => Some (<[O := Some (start, length input - length s')%nat]> caps'))
      (drop start input)
      (replicate (S (numSubexp re)) None).

(** The leftmost start at which there is a match, among [start],
    [start + 1], ... *)
Fixpoint search (re : Compiled) (input : gostring) (fuel start : nat) : option captures :=
  match fuel with
  | O => None
  | S fuel =>
      match match_at re input start with
      | Some caps => Some caps
      | None => search re input fuel (S start)
      end
  end.

Definition submatch (input : gostring) (c : option (nat * nat)) : gostring :=
  match c with
  | Some (lo, hi) => take (hi - lo) (drop lo input)
  | None => []
  end.

(** [Regexp.FindStringSubmatch]: the text of the leftmost match and of
    its groups, the empty string for a group that took no part; nil when
    there is no match. *)
Definition FindStringSubmatch (re : Compiled) (input : gostring) : list gostring :=
  match search re input (S (length input)) O with
  | Some caps => map (submatch input) caps
  | None => []
  end.

End regexp.

(* ===================================================================== *)
(** * Go's [strconv.ParseFloat] *)
(* ===================================================================== *)

Module strconv.

(** A [float64]: IEEE 754 binary64, 53 bits of precision. *)
Definition float64 := spec_float.
Definition prec : Z := 53.
Definition emax : Z := 1024.

Inductive NumError := ErrSyntax | ErrRange.

Definition digit (c : ascii) : option Z :=
  let n := N_of_ascii c in
  if ((48 <=? n) && (n <=? 57))%N then Some (Z.of_N n - 48) else None.

(** The leading decimal digits of [s]: their value added to [10^k * acc],
    their number and the rest of [s]. *)
Fixpoint read_digits (s : gostring) (acc : Z) (count : nat) : Z * nat * gostring :=
  match s with
  | [] => (acc, count, [])
  | c :: rest =>
      match digit c with
      | Some d => read_digits rest (10 * acc + d) (S count)
      | None => (acc, count, s)
      end
  end.

(** The float64 nearest to [m / 10^k], ties to even: the division of
    IEEE 754 applied to the two integers. An overflow is the infinity and
    the range error. *)
Definition round_decimal (m : Z) (k : nat) : float64 * option NumError :=
  match m with
  | Zpos p =>
      let f := SFdiv prec emax (S754_finite false p 0)
                     (S754_finite false (Z.to_pos (10 ^ Z.of_nat k)) 0) in
      match f with
      | S754_infinity _ => (f, Some ErrRange)
      | _ => (f, None)
      end
  | _ => (S754_zero false, None)
  end.

Section ParseFloat.
(** [ParseFloat] also reads a sign, an exponent, hexadecimal
    floating-point numbers, infinities and NaN. Each of these forms has
    a character that is neither a digit nor a point; what [ParseFloat]
    returns for such a string is left as a parameter. *)
Variable other_forms : gostring -> float64 * option NumError.

(** [strconv.ParseFloat(s, 64)] on digits with an optional point: at
    least one digit is required. *)
Definition ParseFloat (s : gostring) : float64 * option NumError :=
  let '(m1, n1, s1) := read_digits s 0 O in
  match s1 with
  | [] => if (n1 =? 0)%nat then (S754_zero false, Some ErrSyntax) else round_decimal m1 O
  | c :: s2 =>
      if Ascii.eqb c "." then
        let '(m2, n2, s3) := read_digits s2 m1 O in
        match s3 with
        | [] => if (n1 + n2 =? 0)%nat then (S754_zero false, Some ErrSyntax)
                else round_decimal m2 n2
        | _ :: _ => other_forms s
        end
      else other_forms s
  end.
End ParseFloat.

(** The rational a finite float64 stands for. *)
Definition to_Q (f : float64) : option Q :=
  match f with
  | S754_zero _ => Some 0%Q
  | S754_finite sign m e =>
      let v := (inject_Z (Zpos m) * Qpower 2 e)%Q in
      Some (Qred (if sign then Qopp v else v))
  | _ => None
  end.

End strconv.

(* ===================================================================== *)
(** * eskip/lexer.go *)
(* ===================================================================== *)

(** The token constants [and], [arrow], ... are declared by the generated
    parser, which is not among the sources; they are positive integers. *)
Module Token.
Inductive t :=
| and | arrow | closeparen | colon | comma | number | openparen
| regexpliteral | semicolon | shunt | stringliteral | symbol.
End Token.

(** What [Lex] and [getToken] return: [-1] or a token constant. *)
Inductive tokenInt :=
| minus1
| const (t : Token.t).

(** used for wrapping tokenizer expressions and extending them with
    metadata *)
Record tokenRx := {
  token : Token.t;
  expression : gostring;
  captureGroups : Z;
  matchIndex : Z
}.

(** The value the parser passes to [Lex]; only its [token] field is
    written here. *)
Record eskipSymType := { sym_token : gostring }.

(** implements the lexer instance. The fields [routes] and [filters],
    which only the parser's actions use, are left out. *)
Record eskipLex := {
  tokenRxs : list tokenRx;
  rx : regexp.Compiled;
  code : gostring;
  lastToken : gostring;
  lastRaw : gostring;
  lastPosition : Z;
  err : option gostring
}.

Definition set_code (l : eskipLex) (v : gostring) : eskipLex :=
  {| tokenRxs := tokenRxs l; rx := rx l; code := v; lastToken := lastToken l;
     lastRaw := lastRaw l; lastPosition := lastPosition l; err := err l |}.
Definition set_lastToken (l : eskipLex) (v : gostring) : eskipLex :=
  {| tokenRxs := tokenRxs l; rx := rx l; code := code l; lastToken := v;
     lastRaw := lastRaw l; lastPosition := lastPosition l; err := err l |}.
Definition set_lastRaw (l : eskipLex) (v : gostring) : eskipLex :=
  {| tokenRxs := tokenRxs l; rx := rx l; code := code l; lastToken := lastToken l;
     lastRaw := v; lastPosition := lastPosition l; err := err l |}.
Definition set_lastPosition (l : eskipLex) (v : Z) : eskipLex :=
  {| tokenRxs := tokenRxs l; rx := rx l; code := code l; lastToken := lastToken l;
     lastRaw := lastRaw l; lastPosition := v; err := err l |}.
Definition set_err (l : eskipLex) (v : option gostring) : eskipLex :=
  {| tokenRxs := tokenRxs l; rx := rx l; code := code l; lastToken := lastToken l;
     lastRaw := lastRaw l; lastPosition := lastPosition l; err := v |}.

(** The skip sub-pattern, written twice in [rxFmt]: runs of whitespace, a
    comment up to its line end, a comment up to the end of the input. The
    carriage return and the line feed are the characters themselves. *)
Definition rxSkip : gostring :=
  bytes "(\s*|//.*" ++ [CR] ++ bytes "?" ++ [LF] ++ bytes "|//.*$)*".

Definition rxFmt : gostring := bytes "^" ++ rxSkip ++ bytes "(%s)" ++ rxSkip.

Definition initialCaptureGroups : Z := 3.

Definition mkTokenRx (t : Token.t) (e : gostring) (g : Z) : tokenRx :=
  {| token := t; expression := e; captureGroups := g; matchIndex := 0 |}.

(** The table of [newLexer], in its order. *)
Definition tokenTable : list tokenRx :=
  [ mkTokenRx Token.and (bytes "[&][&]") 0;
    mkTokenRx Token.arrow (bytes "->") 0;
    mkTokenRx Token.closeparen (bytes "\)") 0;
    mkTokenRx Token.colon (bytes ":") 0;
    mkTokenRx Token.comma (bytes ",") 0;
    mkTokenRx Token.number (bytes "[0-9]*[.]?[0-9]+") 0;
    mkTokenRx Token.openparen (bytes "\(") 0;
    mkTokenRx Token.regexpliteral (bytes "/(\\\\|\\/|[^/])*/") 1;
    mkTokenRx Token.semicolon (bytes ";") 0;
    mkTokenRx Token.shunt (bytes "<shunt>") 0;
    mkTokenRx Token.stringliteral
      ([dquote] ++ bytes "(\\\\|\\" ++ [dquote] ++ bytes "|[^" ++ [dquote] ++ bytes "])*" ++ [dquote]) 1;
    mkTokenRx Token.stringliteral
      ([backtick] ++ bytes "(\\\\|\\" ++ [backtick] ++ bytes "|[^" ++ [dquote] ++ bytes "])*" ++ [backtick]) 1;
    mkTokenRx Token.symbol (bytes "[a-zA-Z_]\w*") 0 ].

(** mapping between the token expressions and the related capture groups
    in the merged token expression: the loop of [newLexer] from index [i]
    on, with the running value [groups] of the local [captureGroups]. It
    returns the table with [matchIndex] set and the slice [tokenRxss]. *)
Fixpoint assignIndexes (i groups : Z) (trxs : list tokenRx)
  : list tokenRx * list gostring :=
  match trxs with
  | [] => ([], [])
  | trx :: rest =>
      let trx' := {| token := token trx; expression := expression trx;
                     captureGroups := captureGroups trx;
                     matchIndex := wrap64 (i + groups) |} in
      let '(trxs', tokenRxss) :=
        assignIndexes (i + 1) (wrap64 (groups + captureGroups trx)) rest in
      (trx' :: trxs', Sprintf (bytes "(%s)") [ArgS (expression trx)] :: tokenRxss)
  end.

(** The pattern handed to [regexp.MustCompile]. *)
Definition mergedExpression (tokenRxss : list gostring) : gostring :=
  Sprintf rxFmt [ArgS (Join tokenRxss (bytes "|"))].

(** creates and initializes a lexer instance *)
Definition newLexer (code : gostring) : option eskipLex :=
  let '(tokenRxs, tokenRxss) := assignIndexes 0 initialCaptureGroups tokenTable in
  rx ← regexp.MustCompile (mergedExpression tokenRxss);
  Some {| tokenRxs := tokenRxs; rx := rx; code := code;
          lastToken := []; lastRaw := []; lastPosition := 0; err := None |}.

(** unescape tokens: the loop over the bytes of [s], with the slice [r]
    and the flag [escaped]. *)
Fixpoint unescape_loop (s chars : gostring) (r : list gostring) (escaped : bool)
  : list gostring :=
  match s with
  | [] => r
  | c :: rest =>
      if escaped && contains chars c then unescape_loop rest chars (r ++ [[c]]) false
      else if escaped then unescape_loop rest chars (r ++ [[backslash]; [c]]) false
      else if Ascii.eqb c backslash then unescape_loop rest chars r true
      else unescape_loop rest chars (r ++ [[c]]) escaped
  end.

Definition unescape (s chars : gostring) : gostring :=
  Join (unescape_loop s chars [] false) [].

(** conversion error ignored, tokenizer expression already checked
    format *)
Definition convertNumber (other_forms : gostring -> strconv.float64 * option strconv.NumError)
  (s : gostring) : strconv.float64 :=
  let '(n, _) := strconv.ParseFloat other_forms s in n.

(** unescaping only the double quote and the backslash *)
Definition convertString (s : gostring) : option gostring :=
  first ← slice s 0 1;
  if decide (first = [backtick]) then slice s 1 (len s - 1)
  else body ← slice s 1 (len s - 1); Some (unescape body [backslash; dquote]).

(** unescaping only the slash *)
Definition convertRegexp (s : gostring) : option gostring :=
  body ← slice s 1 (len s - 1); Some (unescape body [slash]).

(** [m[i]] *)
Definition index (m : list gostring) (i : Z) : option gostring :=
  if i <? 0 then None else m !! Z.to_nat i.

(** match a token at the current position *)
Definition matchToken (l : eskipLex) : option (eskipLex * list gostring) :=
  let m := regexp.FindStringSubmatch (rx l) (code l) in
  if len_list m =? 0 then Some (set_lastRaw l [], m)
  else
    m0 ← index m 0;
    let l := set_lastRaw l m0 in
    rest ← slice (code l) (len m0) (len (code l));
    Some (set_code l rest, m).

(** get the matched token based on the matched capture group: the loop
    over [l.tokenRxs]. *)
Fixpoint getToken_loop (trxs : list tokenRx) (m : list gostring)
  : option (tokenInt * gostring) :=
  match trxs with
  | [] => Some (minus1, [])
  | trx :: rest =>
      s ← index m (matchIndex trx);
      if negb (len s =? 0) then Some (const (token trx), s)
      else getToken_loop rest m
  end.

Definition getToken (l : eskipLex) (m : list gostring) : option (tokenInt * gostring) :=
  getToken_loop (tokenRxs l) m.

(** error with approximate position *)
Definition Error (l : eskipLex) (e : gostring) : eskipLex :=
  set_err l (Some (Sprintf (bytes "parse failed after token %s, position %d: %s")
                           [ArgS (lastToken l); ArgD (lastPosition l); ArgS e])).

(** lexer implementation *)
Definition Lex (l : eskipLex) (lval : eskipSymType)
  : option (eskipLex * eskipSymType * tokenInt) :=
  if len (code l) =? 0 then Some (l, lval, minus1)
  else
    let l := set_lastPosition l (wrap64 (lastPosition l + len (lastRaw l))) in
    '(l, m) ← matchToken l;
    if len_list m =? 0 then Some (Error l (bytes "invalid token"), lval, minus1)
    else
      '(t, s) ← getToken l m;
      Some (set_lastToken l s, {| sym_token := s |}, t).

(* ===================================================================== *)
(** * filters/chain/chain.go *)
(* ===================================================================== *)

Module chain.

(** A value of the empty interface, as far as the chain tells values
    apart: an [int] or something else. *)
Inductive any :=
| Int (z : Z)
| NotInt.

(** What a [filters.FilterContext] gives access to: whether a response
    has been served, the state bag, and the rest of the request and
    response, of some type [W]. *)
Record FilterContext (W : Type) := {
  Served : bool;
  StateBag : gmap string any;
  world : W
}.
Arguments Served {W} _.
Arguments StateBag {W} _.
Arguments world {W} _.

(** A chained filter: its two hooks act on the context. *)
Record Filter (W : Type) := {
  Request : FilterContext W -> FilterContext W;
  Response : FilterContext W -> FilterContext W
}.
Arguments Request {W} _ _.
Arguments Response {W} _ _.

Definition exitIndexKey : string := "fashionStoreExitIndex".

Definition set_bag {W} (ctx : FilterContext W) (k : string) (v : any) : FilterContext W :=
  {| Served := Served ctx; StateBag := <[k := v]> (StateBag ctx); world := world ctx |}.

Section Chain.
Context {W : Type}.

(** [chain.Request]: the loop from index [i] on. Next to the context it
    returns the indexes of the filters whose [Request] hook it ran, in
    order. *)
Fixpoint Request_loop (i : Z) (fs : list (Filter W)) (ctx : FilterContext W)
  : FilterContext W * list Z :=
  match fs with
  | [] => (ctx, [])
  | f :: rest =>
      let ctx := Request f ctx in
      if Served ctx then (set_bag ctx exitIndexKey (Int i), [i])
      else
        let '(ctx, ran) := Request_loop (i + 1) rest ctx in
        (ctx, i :: ran)
  end.

Definition chain_Request (fs : list (Filter W)) (ctx : FilterContext W)
  : FilterContext W * list Z :=
  Request_loop 0 fs ctx.

(** The loop of [chain.Response], with the indexes of the filters whose
    [Response] hook it ran. An element of the slice that is [nil] makes
    the call of its hook panic. *)
Fixpoint Response_loop (i : Z) (fs : list (option (Filter W))) (ctx : FilterContext W)
  : option (FilterContext W * list Z) :=
  match fs with
  | [] => Some (ctx, [])
  | None :: _ => None
  | Some f :: rest =>
      '(ctx, ran) ← Response_loop (i + 1) rest (Response f ctx);
      Some (ctx, i :: ran)
  end.

(** [chain.Response]. [fs] are the filters of [chain.filters], and
    [spare] is what its backing array holds behind them, from the length
    of the slice to its capacity: filters or [nil]. The slice expression
    [chain.filters[:index]] reaches these elements, as Go checks its
    index against the capacity, not the length. The type assertion panics
    on a value that is not an [int], the slice expression on an index
    below 0 or above the capacity. *)
Definition chain_Response (fs : list (Filter W)) (spare : list (option (Filter W)))
    (ctx : FilterContext W) : option (FilterContext W * list Z) :=
  fs ← match StateBag ctx !! exitIndexKey with
       | Some (Int index) =>
           if (0 <=? index) && (index <=? len_list fs + len_list spare)
           then Some (take (Z.to_nat index) ((Some <$> fs) ++ spare))
           else None
       | Some NotInt => None
       | None => Some (Some <$> fs)
       end;
  Response_loop 0 fs ctx.
End Chain.

End chain.

(* ===================================================================== *)
(** * Derived definitions used in the statements *)
(* ===================================================================== *)

(** The table and the pattern that [newLexer] computes, and the compiled
    pattern. *)
Definition eskipTokenRxs : list tokenRx :=
  fst (assignIndexes 0 initialCaptureGroups tokenTable).

Definition eskipPattern : gostring :=
  mergedExpression (snd (assignIndexes 0 initialCaptureGroups tokenTable)).

Definition eskipRx : regexp.Compiled :=
  Eval vm_compute in
    default {| regexp.expr := regexp.OpEmptyMatch; regexp.numSubexp := O |}
            (regexp.MustCompile eskipPattern).

(** The lexer that [newLexer] returns for [code]. *)
Definition initial (code : gostring) : eskipLex :=
  {| tokenRxs := eskipTokenRxs; rx := eskipRx; code := code;
     lastToken := []; lastRaw := []; lastPosition := 0; err := None |}.

(** The state after [n] calls of [Lex], with the value they returned. *)
Fixpoint LexN (n : nat) (l : eskipLex) (lval : eskipSymType)
  : option (eskipLex * eskipSymType * list tokenInt) :=
  match n with
  | O => Some (l, lval, [])
  | S n =>
      '(l, lval, t) ← Lex l lval;
      '(l, lval, ts) ← LexN n l lval;
      Some (l, lval, t :: ts)
  end.

(** The states of one scan session of [input]: the lexer [newLexer]
    returns, and every state a call of [Lex] leads to. *)
Inductive session (input : gostring) : eskipLex -> Prop :=
| session_new l :
    newLexer input = Some l -> session input l
| session_Lex l lval l' lval' t :
    session input l -> Lex l lval = Some (l', lval', t) -> session input l'.

(** The sum of the internal group counts of the first [i] entries. *)
Definition groupsBefore (i : nat) (trxs : list tokenRx) : Z :=
  foldr Z.add 0 (captureGroups <$> take i trxs).

(** The unescape algorithm in the words of the specification: one pass
    from the left; an escape character and an allowed character give that
    character, an escape character and another character give both, an
    escape character at the end gives nothing. *)
Fixpoint unescape_spec (s allowed : gostring) : gostring :=
  match s with
  | [] => []
  | c :: rest =>
      if Ascii.eqb c backslash then
        match rest with
        | [] => []
        | d :: rest' =>
            if contains allowed d then d :: unescape_spec rest' allowed
            else c :: d :: unescape_spec rest' allowed
        end
      else c :: unescape_spec rest allowed
  end.

(** ** The words of a pattern

    [lang r w]: [w] is matched by [r], in some context (the assertions
    [^] and [$] match the empty word). Every match the matcher finds is
    of this kind. *)
Module Lang.
Import regexp.

Inductive lang : Regexp -> gostring -> Prop :=
| lang_empty : lang OpEmptyMatch []
| lang_char cl c : class_matches cl c = true -> lang (OpCharClass cl) [c]
| lang_begin : lang OpBeginText []
| lang_end : lang OpEndText []
| lang_capture i r w : lang r w -> lang (OpCapture i r) w
| lang_star_nil r : lang (OpStar r) []
| lang_star_more r w1 w2 : lang r w1 -> lang (OpStar r) w2 -> lang (OpStar r) (w1 ++ w2)
| lang_plus r w1 w2 : lang r w1 -> lang (OpStar r) w2 -> lang (OpPlus r) (w1 ++ w2)
| lang_quest_nil r : lang (OpQuest r) []
| lang_quest_one r w : lang r w -> lang (OpQuest r) w
| lang_concat r1 r2 w1 w2 : lang r1 w1 -> lang r2 w2 -> lang (OpConcat r1 r2) (w1 ++ w2)
| lang_alt_l r1 r2 w : lang r1 w -> lang (OpAlternate r1 r2) w
| lang_alt_r r1 r2 w : lang r2 w -> lang (OpAlternate r1 r2) w.

(** The sub-pattern of the capturing group [i]. *)
Fixpoint group_sub (i : nat) (r : Regexp) : option Regexp :=
  match r with
  | OpCapture j sub => if (i =? j)%nat then Some sub else group_sub i sub
  | OpStar sub | OpPlus sub | OpQuest sub => group_sub i sub
  | OpConcat sub1 sub2 | OpAlternate sub1 sub2 =>
      match group_sub i sub1 with
      | Some g => Some g
      | None => group_sub i sub2
      end
  | _ => None
  end.

(** [matches total r s caps s' caps']: [r] matches at the position where
    [s] remains of an input of length [total], up to the position where
    [s'] remains, and turns the recorded groups [caps] into [caps']. Here
    [^] and [$] are tied to the two ends of the input. *)
Inductive matches (total : nat)
  : Regexp -> gostring -> captures -> gostring -> captures -> Prop :=
| matches_empty s c : matches total OpEmptyMatch s c s c
| matches_char cl ch s c :
    class_matches cl ch = true -> matches total (OpCharClass cl) (ch :: s) c s c
| matches_begin s c : length s = total -> matches total OpBeginText s c s c
| matches_end c : matches total OpEndText [] c [] c
| matches_capture i r s c s' c' :
    matches total r s c s' c' ->
    matches total (OpCapture i r) s c s'
            (<[i := Some (total - length s, total - length s')%nat]> c')
| matches_star_nil r s c : matches total (OpStar r) s c s c
| matches_star_more r s c s1 c1 s2 c2 :
    matches total r s c s1 c1 -> matches total (OpStar r) s1 c1 s2 c2 ->
    matches total (OpStar r) s c s2 c2
| matches_plus r s c s1 c1 s2 c2 :
    matches total r s c s1 c1 -> matches total (OpStar r) s1 c1 s2 c2 ->
    matches total (OpPlus r) s c s2 c2
| matches_quest_nil r s c : matches total (OpQuest r) s c s c
| matches_quest_one r s c s' c' :
    matches total r s c s' c' -> matches total (OpQuest r) s c s' c'
| matches_concat r1 r2 s c s1 c1 s2 c2 :
    matches total r1 s c s1 c1 -> matches total r2 s1 c1 s2 c2 ->
    matches total (OpConcat r1 r2) s c s2 c2
| matches_alt_l r1 r2 s c s' c' :
    matches total r1 s c s' c' -> matches total (OpAlternate r1 r2) s c s' c'
| matches_alt_r r1 r2 s c s' c' :
    matches total r2 s c s' c' -> matches total (OpAlternate r1 r2) s c s' c'.

(** Whether [r] has a capturing group of index [i]. *)
Fixpoint has_group (i : nat) (r : Regexp) : bool :=
  match r with
  | OpCapture j sub => (i =? j)%nat || has_group i sub
  | OpStar sub | OpPlus sub | OpQuest sub => has_group i sub
  | OpConcat sub1 sub2 | OpAlternate sub1 sub2 => has_group i sub1 || has_group i sub2
  | _ => false
  end.

(** Whether a word of [r] can start with [ch]. *)
Fixpoint firsts (r : Regexp) (ch : ascii) : bool :=
  match r with
  | OpCharClass cl => class_matches cl ch
  | OpCapture _ sub | OpStar sub | OpPlus sub | OpQuest sub => firsts sub ch
  | OpConcat sub1 sub2 => firsts sub1 ch || nullable sub1 && firsts sub2 ch
  | OpAlternate sub1 sub2 => firsts sub1 ch || firsts sub2 ch
  | _ => false
  end.

(** The branches of an alternation, in order. *)
Fixpoint alternatives (r : Regexp) : list Regexp :=
  match r with
  | OpAlternate sub1 sub2 => sub1 :: alternatives sub2
  | _ => [r]
  end.

Definition all_ascii : list ascii := map ascii_of_nat (seq 0 256).

(** Every character of the class satisfies [Q]. *)
Definition class_within (Q : ascii -> bool) (cl : charClass) : bool :=
  forallb (fun c => implb (class_matches cl c) (Q c)) all_ascii.

(** A sufficient condition for: every word of [r] has a character that
    satisfies [Q]. *)
Fixpoint needs (Q : ascii -> bool) (r : Regexp) : bool :=
  match r with
  | OpCharClass cl => class_within Q cl
  | OpCapture _ sub | OpPlus sub => needs Q sub
  | OpConcat sub1 sub2 => needs Q sub1 || needs Q sub2
  | OpAlternate sub1 sub2 => needs Q sub1 && needs Q sub2
  | _ => false
  end.

(** A piece of the matcher that only succeeds through its continuation,
    after a match of [r]. *)
Definition sound_for (total : nat) (r : Regexp) (body : cont -> cont) : Prop :=
  forall k s c res,
    body k s c = Some res ->
    exists s' c', matches total r s c s' c' /\ k s' c' = Some res.

(** The continuation succeeds at [s'], whatever the groups. *)
Definition accepts (k : cont) (s' : gostring) : Prop := forall c, is_Some (k s' c).
(** A piece of the matcher that succeeds wherever there is a match of [r]
    after which the continuation succeeds. *)
Definition complete_for (total : nat) (r : Regexp) (body : cont -> cont) : Prop :=
  forall s c s' c',
    matches total r s c s' c' ->
    forall k c0, accepts k s' -> is_Some (body k s c0).

End Lang.

(** Whitespace, as [\s] has it: tab, line feed, form feed, carriage
    return and space. *)
Definition isSpace (c : ascii) : bool := regexp.class_matches regexp.perl_space c.

(** An input that consists solely of whitespace and line comments: outside
    a comment only whitespace and the two slashes that open a comment may
    occur; a comment ends with its line. *)
Fixpoint skipOnly_from (in_comment : bool) (s : gostring) : bool :=
  match s with
  | [] => true
  | c :: rest =>
      if in_comment then skipOnly_from (negb (Ascii.eqb c LF)) rest
      else if isSpace c then skipOnly_from false rest
      else
        match rest with
        | d :: rest' => Ascii.eqb c slash && Ascii.eqb d slash && skipOnly_from true rest'
        | [] => false
        end
  end.

Definition skipOnly (s : gostring) : bool := skipOnly_from false s.

Definition lval0 : eskipSymType := {| sym_token := [] |}.

(** The caller's loop: [Lex] is called until it returns [-1]. The result
    is the list of tokens returned, each with the text [Lex] left in the
    caller's value, and the error recorded at the end. [None] is a panic,
    or [fuel] calls that did not reach the end. *)
Fixpoint scan (fuel : nat) (l : eskipLex) (lval : eskipSymType)
  : option (list (Token.t * gostring) * option gostring) :=
  match fuel with
  | O => None
  | S fuel =>
      '(l, lval, t) ← Lex l lval;
      match t with
      | minus1 => Some ([], err l)
      | const tk =>
          '(toks, e) ← scan fuel l lval;
          Some ((tk, sym_token lval) :: toks, e)
      end
  end.

(** Every token consumes a character, so one call more than the input
    has characters is enough. *)
Definition tokenize (input : gostring) : option (list (Token.t * gostring) * option gostring) :=
  l ← newLexer input; scan (S (length input)) l lval0.

(** A filter that serves the response in its request hook. *)
Definition serving : chain.Filter unit :=
  {| chain.Request := fun ctx =>
       {| chain.Served := true; chain.StateBag := chain.StateBag ctx;
          chain.world := chain.world ctx |};
     chain.Response := fun ctx => ctx |}.

Definition emptyContext : chain.FilterContext unit :=
  {| chain.Served := false; chain.StateBag := ∅; chain.world := tt |}.

(** The pattern of the number entry of the table, compiled on its own. *)
Definition numberPattern : regexp.Regexp :=
  Eval vm_compute in
    default regexp.OpEmptyMatch (regexp.expr <$> regexp.Compile (bytes "[0-9]*[.]?[0-9]+")).

Definition isDigit (c : ascii) : bool := regexp.class_matches regexp.perl_digit c.

(** The indexes [i0], [i0 + 1], ..., [i0 + n - 1]. *)
Definition indexes (i0 : Z) (n : nat) : list Z :=
  (fun k => i0 + Z.of_nat k) <$> seq 0 n.

(** The three parts of the compiled pattern after [^]: the skip group
    repeated before the token, the alternation of the token groups, the
    skip group repeated after the token. *)
Definition eskipParts : regexp.Regexp * regexp.Regexp * regexp.Regexp :=
  Eval vm_compute in
    match regexp.expr eskipRx with
    | regexp.OpConcat regexp.OpBeginText
        (regexp.OpConcat (regexp.OpStar a)
           (regexp.OpConcat (regexp.OpCapture 2 t) (regexp.OpStar b))) => (a, t, b)
    | _ => (regexp.OpEmptyMatch, regexp.OpEmptyMatch, regexp.OpEmptyMatch)
    end.

Definition skipBefore : regexp.Regexp := fst (fst eskipParts).
Definition eskipTokens : regexp.Regexp := snd (fst eskipParts).
Definition skipAfter : regexp.Regexp := snd eskipParts.

(** The number of the group of a table entry, and its sub-pattern in the
    compiled pattern. *)
Definition groupIndex (trx : tokenRx) : nat := Z.to_nat (matchIndex trx).

Definition tokenGroup (trx : tokenRx) : regexp.Regexp :=
  default regexp.OpEmptyMatch (Lang.group_sub (groupIndex trx) (regexp.expr eskipRx)).

(** What the proofs use of the table and the compiled pattern, checked by
    computation: the group of an entry exists, has an index from 1 to 19
    other than 2, matches no empty word, and occurs neither in the skip
    groups nor in the sub-pattern of any entry. *)
Definition table_entry_ok (trx : tokenRx) : bool :=
  (0 <=? matchIndex trx) && (0 <? groupIndex trx)%nat && (groupIndex trx <? 20)%nat &&
  negb (groupIndex trx =? 2)%nat &&
  bool_decide (Lang.group_sub (groupIndex trx) (regexp.expr eskipRx) <> None) &&
  negb (regexp.nullable (tokenGroup trx)) &&
  negb (Lang.has_group (groupIndex trx) (regexp.OpStar skipBefore)) &&
  negb (Lang.has_group (groupIndex trx) (regexp.OpStar skipAfter)) &&
  forallb (fun trx' => negb (Lang.has_group (groupIndex trx) (tokenGroup trx'))) eskipTokenRxs.

(** The states of a session keep the table and the pattern of
    [newLexer]. *)
Definition well_formed (l : eskipLex) : Prop :=
  tokenRxs l = eskipTokenRxs /\ rx l = eskipRx.

(** What holds of every state of a session: the remaining input is a
    suffix of the input, and the offset and the length of the last match
    add up to the length of what was consumed. *)
Definition consumed_inv (input : gostring) (l : eskipLex) : Prop :=
  exists consumed,
    input = consumed ++ code l /\
    0 <= lastPosition l /\
    lastPosition l + len (lastRaw l) = len consumed.

(** The fixed text of the punctuation and keyword tokens, as the
    expressions of the table spell it. *)
Definition lexeme (t : Token.t) : option gostring :=
  match t with
  | Token.and => Some (bytes "&&")
  | Token.arrow => Some (bytes "->")
  | Token.closeparen => Some (bytes ")")
  | Token.colon => Some (bytes ":")
  | Token.comma => Some (bytes ",")
  | Token.openparen => Some (bytes "(")
  | Token.semicolon => Some (bytes ";")
  | Token.shunt => Some (bytes "<shunt>")
  | Token.number | Token.regexpliteral | Token.stringliteral | Token.symbol => None
  end.

(** A pattern with [n] added to the index of each of its groups. *)
Fixpoint shift_groups (n : nat) (r : regexp.Regexp) : regexp.Regexp :=
  match r with
  | regexp.OpCapture i sub => regexp.OpCapture (n + i) (shift_groups n sub)
  | regexp.OpStar sub => regexp.OpStar (shift_groups n sub)
  | regexp.OpPlus sub => regexp.OpPlus (shift_groups n sub)
  | regexp.OpQuest sub => regexp.OpQuest (shift_groups n sub)
  | regexp.OpConcat sub1 sub2 => regexp.OpConcat (shift_groups n sub1) (shift_groups n sub2)
  | regexp.OpAlternate sub1 sub2 =>
      regexp.OpAlternate (shift_groups n sub1) (shift_groups n sub2)
  | _ => r
  end.

Definition isWordChar (c : ascii) : bool := regexp.class_matches regexp.perl_word c.

(** The request hooks, resp. the response hooks, of all filters in
    order. *)
Definition allRequests {W} (fs : list (chain.Filter W)) (ctx : chain.FilterContext W)
  : chain.FilterContext W :=
  foldl (fun c f => chain.Request f c) ctx fs.

Definition allResponses {W} (fs : list (chain.Filter W)) (ctx : chain.FilterContext W)
  : chain.FilterContext W :=
  foldl (fun c f => chain.Response f c) ctx fs.

(** The only word of a pattern that is a sequence of single
    characters. *)
Fixpoint literal_word (r : regexp.Regexp) : option gostring :=
  match r with
  | regexp.OpCharClass (regexp.Literal c) => Some [c]
  | regexp.OpCharClass (regexp.Ranges false [(c, d)]) =>
      if Ascii.eqb c d then Some [c] else None
  | regexp.OpConcat sub1 sub2 =>
      w1 ← literal_word sub1; w2 ← literal_word sub2; Some (w1 ++ w2)
  | _ => None
  end.

(** Whether [r] has neither [^] nor [$]. *)
Fixpoint anchor_free (r : regexp.Regexp) : bool :=
  match r with
  | regexp.OpBeginText | regexp.OpEndText => false
  | regexp.OpCapture _ sub | regexp.OpStar sub | regexp.OpPlus sub | regexp.OpQuest sub =>
      anchor_free sub
  | regexp.OpConcat sub1 sub2 | regexp.OpAlternate sub1 sub2 =>
      anchor_free sub1 && anchor_free sub2
  | _ => true
  end.

(** Whether every [q] in [s] comes directly after a backslash;
    [after_backslash] tells whether [s] itself does. *)
Fixpoint delimiter_escaped (q : ascii) (after_backslash : bool) (s : gostring) : bool :=
  match s with
  | [] => true
  | c :: rest =>
      (negb (Ascii.eqb c q) || after_backslash) &&
      delimiter_escaped q (Ascii.eqb c backslash) rest
  end.

(** The entry of the regexp literals, as [newLexer] leaves it. *)
Definition regexpliteralEntry : tokenRx :=
  {| token := Token.regexpliteral; expression := bytes "/(\\\\|\\/|[^/])*/";
     captureGroups := 1; matchIndex := 10 |}.

(** A letter of the ASCII alphabet. *)
Definition isLetter (c : ascii) : bool :=
  let n := N_of_ascii c in
  ((65 <=? n) && (n <=? 90) || (97 <=? n) && (n <=? 122))%N.

(** The pattern of the symbol entry of the table, compiled on its own. *)
Definition symbolPattern : regexp.Regexp :=
  Eval vm_compute in
    default regexp.OpEmptyMatch (regexp.expr <$> regexp.Compile (bytes "[a-zA-Z_]\w*")).

(** The shape of the patterns of the three delimited literals: the
    delimiter [q], then any number of two backslashes, of a backslash and
    [q], or of one character other than [x], in the group [i], then [q]
    again. *)
Definition literalPattern (i : nat) (q x : ascii) : regexp.Regexp :=
  regexp.OpConcat (regexp.OpCharClass (regexp.Literal q))
    (regexp.OpConcat
       (regexp.OpStar
          (regexp.OpCapture i
             (regexp.OpAlternate
                (regexp.OpConcat (regexp.OpCharClass (regexp.Literal backslash))
                                 (regexp.OpCharClass (regexp.Literal backslash)))
                (regexp.OpAlternate
                   (regexp.OpConcat (regexp.OpCharClass (regexp.Literal backslash))
                                    (regexp.OpCharClass (regexp.Literal q)))
                   (regexp.OpCharClass (regexp.Ranges true [(x, x)]))))))
       (regexp.OpCharClass (regexp.Literal q))).

(** A filter that does nothing in either hook. *)
Definition passing : chain.Filter unit :=
  {| chain.Request := fun ctx => ctx; chain.Response := fun ctx => ctx |}.

(* ===================================================================== *)
(** * Properties *)
(* ===================================================================== *)

(** ** The lexer [newLexer] builds *)

Lemma newLexer_initial code : newLexer code = Some (initial code).
Proof. reflexivity. Qed.

Lemma wrap64_range z : - 2 ^ 63 <= wrap64 z < 2 ^ 63.
Proof. unfold wrap64. pose proof (Z.mod_pos_bound (z + 2 ^ 63) (2 ^ 64)). lia. Qed.

Lemma wrap64_small z : - 2 ^ 63 <= z < 2 ^ 63 -> wrap64 z = z.
Proof. intros H. unfold wrap64. rewrite Z.mod_small; lia. Qed.

Lemma wrap64_idem z : wrap64 (wrap64 z) = wrap64 z.
Proof. apply wrap64_small, wrap64_range. Qed.

Lemma len_nil : len [] = 0.
Proof. reflexivity. Qed.

Lemma len_zero s : (len s =? 0) = true <-> s = [].
Proof.
  unfold len. destruct s; simpl; split; intros H; reflexivity || discriminate.
Qed.

(** ** Capture-group indexes (C3) *)

(** C3, as amended. For every definition of the fixed table, at position
    [i], the index [newLexer] assigns is 3, plus [i] (one top-level group
    for each earlier definition), plus the sum of the earlier
    definitions' internal group counts. *)
Theorem matchIndex_assigned (i : nat) (trx : tokenRx) :
  eskipTokenRxs !! i = Some trx ->
  matchIndex trx = 3 + Z.of_nat i + groupsBefore i tokenTable.
Proof.
  intros H.
  do 13 (destruct i as [|i]; [injection H as <-; reflexivity|]).
  discriminate H.
Qed.

Lemma matchIndex_assigned_witness :
  exists trx, eskipTokenRxs !! 8%nat = Some trx /\ matchIndex trx = 12.
Proof.
  eexists. split; [reflexivity|].
  apply (matchIndex_assigned 8 _ eq_refl).
Defined.

(** C3 as stated fails already for the first definition: its index is 3,
    not 3 + 0 + 1. *)
Lemma matchIndex_not_three_plus_sum_plus_one :
  ~ (forall i trx, eskipTokenRxs !! i = Some trx ->
       matchIndex trx = 3 + groupsBefore i tokenTable + 1).
Proof.
  intros H. specialize (H O _ eq_refl). vm_compute in H. discriminate H.
Qed.

(** ** Unescaping (C4) *)

Lemma Join_cons_empty e rest : Join (e :: rest) [] = e ++ Join rest [].
Proof. destruct rest; simpl; [by rewrite app_nil_r | reflexivity]. Qed.

Lemma Join_app_empty r1 r2 : Join (r1 ++ r2) [] = Join r1 [] ++ Join r2 [].
Proof.
  induction r1 as [|e r1 IH]; [reflexivity|].
  rewrite <- app_comm_cons, !Join_cons_empty, IH. by rewrite app_assoc.
Qed.

Lemma unescape_loop_spec s chars r :
  Join (unescape_loop s chars r false) [] = Join r [] ++ unescape_spec s chars.
Proof.
  revert r. induction s as [s IH] using (induction_ltof1 _ (@length ascii)).
  unfold ltof in IH. intros r. destruct s as [|c rest]; simpl.
  - by rewrite app_nil_r.
  - destruct (Ascii.eqb c backslash) eqn:Hc.
    + apply Ascii.eqb_eq in Hc. subst c.
      destruct rest as [|d rest']; simpl; [by rewrite app_nil_r|].
      destruct (contains chars d).
      * rewrite IH by (simpl; lia). rewrite Join_app_empty. simpl.
        by rewrite <- app_assoc.
      * rewrite IH by (simpl; lia). rewrite Join_app_empty. simpl.
        by rewrite <- app_assoc.
    + rewrite IH by (simpl; lia). rewrite Join_app_empty. simpl.
      by rewrite <- app_assoc.
Qed.

(** C4. For every input and every allowed set, [unescape] is the single
    pass of the specification: an escape character and an allowed
    character give that character alone, an escape character and any
    other character give both unchanged, and an escape character at the
    end of the input is dropped. *)
Theorem unescape_correct (s chars : gostring) :
  unescape s chars = unescape_spec s chars.
Proof. unfold unescape. by rewrite unescape_loop_spec. Qed.

(** ** Soundness of the matcher *)

Section Soundness.
Import regexp Lang.
Variable total : nat.


Lemma loop_sound r body :
  sound_for total r body ->
  forall fuel, sound_for total (OpStar r) (fun k => loop body k fuel).
Proof.
  intros Hb fuel. induction fuel as [|fuel IH]; intros k s c res H; simpl in H.
  - exists s, c. split; [constructor|done].
  - unfold orelse in H. destruct (body _ s c) as [x|] eqn:E.
    + injection H as ->.
      apply Hb in E as (s1 & c1 & H1 & E1).
      destruct (length s1 <? length s)%nat; [|discriminate].
      apply IH in E1 as (s2 & c2 & H2 & E2).
      exists s2, c2. split; [|done]. by econstructor.
    + exists s, c. split; [constructor|done].
Qed.

Lemma plus_sound r body :
  sound_for total r body -> sound_for total (OpPlus r) (plus body).
Proof.
  intros Hb k s c res H. unfold plus in H.
  apply Hb in H as (s1 & c1 & H1 & E).
  destruct (length s1 <? length s)%nat.
  - apply (loop_sound r body Hb) in E as (s2 & c2 & H2 & E2).
    exists s2, c2. split; [|done]. by econstructor.
  - exists s1, c1. split; [|done]. econstructor; [done|constructor].
Qed.

Lemma matches_plus_star r s c s' c' :
  matches total (OpPlus r) s c s' c' -> matches total (OpStar r) s c s' c'.
Proof. inversion 1; subst. by econstructor. Qed.

Lemma run_sound r : sound_for total r (run total r).
Proof.
  induction r as [|cl| | |i r IH|r IH|r IH|r IH|r1 IH1 r2 IH2|r1 IH1 r2 IH2];
    intros k s c res H; simpl in H.
  - exists s, c. split; [constructor|done].
  - destruct s as [|ch s']; [discriminate|].
    destruct (class_matches cl ch) eqn:E; [|discriminate].
    exists s', c. split; [by constructor|done].
  - destruct (length s =? total)%nat eqn:E; [|discriminate].
    apply Nat.eqb_eq in E. exists s, c. split; [by constructor|done].
  - destruct s; [|discriminate]. exists [], c. split; [constructor|done].
  - apply IH in H as (s' & c' & H1 & E).
    eexists s', _. split; [by constructor|exact E].
  - destruct (nullable r).
    + unfold orelse in H. destruct (plus _ _ s c) as [x|] eqn:E.
      * injection H as ->.
        apply (plus_sound r _ IH) in E as (s' & c' & H1 & E).
        exists s', c'. split; [by apply matches_plus_star|done].
      * exists s, c. split; [constructor|done].
    + by apply (loop_sound r _ IH) in H.
  - by apply (plus_sound r _ IH) in H.
  - unfold orelse in H. destruct (run _ r k s c) as [x|] eqn:E.
    + injection H as ->. apply IH in E as (s' & c' & H1 & E).
      exists s', c'. split; [by constructor|done].
    + exists s, c. split; [constructor|done].
  - apply IH1 in H as (s1 & c1 & H1 & E).
    apply IH2 in E as (s2 & c2 & H2 & E).
    exists s2, c2. split; [by econstructor|done].
  - unfold orelse in H. destruct (run _ r1 k s c) as [x|] eqn:E.
    + injection H as ->. apply IH1 in E as (s' & c' & H1 & E).
      exists s', c'. split; [by apply matches_alt_l|done].
    + apply IH2 in H as (s' & c' & H1 & E2).
      exists s', c'. split; [by apply matches_alt_r|done].
Qed.

(** A match consumes a word of the pattern. *)
Lemma matches_lang r s c s' c' :
  matches total r s c s' c' -> exists w, s = w ++ s' /\ lang r w.
Proof.
  induction 1;
    repeat match goal with H : exists _, _ |- _ => destruct H as (? & -> & ?) end;
    try (exists []; split; [done|constructor]; done).
  - exists [ch]. split; [done|by constructor].
  - eexists. split; [done|by constructor].
  - eexists. rewrite app_assoc. split; [done|by constructor].
  - eexists. rewrite app_assoc. split; [done|by constructor].
  - eexists. split; [done|by constructor].
  - eexists. rewrite app_assoc. split; [done|by constructor].
  - eexists. split; [done|by apply lang_alt_l].
  - eexists. split; [done|by apply lang_alt_r].
Qed.

Lemma matches_caps_length r s c s' c' :
  matches total r s c s' c' -> length c' = length c.
Proof. induction 1; try done; try congruence. by rewrite length_insert. Qed.

(** A match leaves the groups it does not contain as they were. *)
Lemma matches_frame i r s c s' c' :
  matches total r s c s' c' -> has_group i r = false -> c' !! i = c !! i.
Proof.
  induction 1; simpl; intros Hi; try done;
    repeat match goal with
           | H : _ || _ = false |- _ => apply orb_false_iff in H as [? ?]
           end; try (by etrans; eauto).
  - rewrite list_lookup_insert_ne; [auto|]. intros ->.
    by rewrite Nat.eqb_refl in *.
  - etrans; [apply IHmatches2|apply IHmatches1]; auto.
  - etrans; [apply IHmatches2|apply IHmatches1]; auto.
  - etrans; [apply IHmatches2|apply IHmatches1]; auto.
Qed.

Lemma matches_shorter r s c s' c' :
  matches total r s c s' c' ->
  (length s' <= length s)%nat /\ (length s' = length s -> s' = s).
Proof.
  intros H. apply matches_lang in H as (w & -> & _).
  rewrite length_app. split; [lia|].
  intros Hl. destruct w; [done|simpl in Hl; lia].
Qed.
End Soundness.

(** ** Completeness of the matcher

    Where there is a match after which the continuation succeeds whatever
    the groups, the matcher succeeds (possibly with another match, tried
    earlier). *)

Section Completeness.
Import regexp Lang.
Variable total : nat.



Lemma loop_accepts_nil body k fuel s c :
  is_Some (k s c) -> is_Some (loop body k fuel s c).
Proof.
  intros H. destruct fuel; simpl; [done|].
  unfold orelse. by destruct (body _ s c).
Qed.

Lemma loop_complete r body :
  complete_for total r body ->
  forall s c s' c',
    matches total (OpStar r) s c s' c' ->
    forall fuel k c0, (length s <= fuel)%nat -> accepts k s' ->
                      is_Some (loop body k fuel s c0).
Proof.
  intros Hb s c s' c' H. remember (OpStar r) as R eqn:HR.
  induction H as [| | | | | | r' s c s1 c1 s2 c2 H1 _ H2 IH| | | | | |];
    try discriminate HR.
  - intros fuel k c0 _ Hk. by apply loop_accepts_nil.
  - injection HR as ->. specialize (IH eq_refl). intros fuel k c0 Hf Hk.
    destruct (matches_shorter _ _ _ _ _ _ H1) as [Hle Heq].
    destruct (decide (length s1 = length s)) as [E|E].
    { rewrite <- (Heq E). apply IH; [lia|done]. }
    destruct fuel as [|fuel]; [lia|]. simpl. unfold orelse.
    destruct (body _ s c0) as [x|] eqn:Eb; [done|].
    exfalso. eapply is_Some_None. rewrite <- Eb.
    eapply Hb; [exact H1|]. intros c''.
    replace (length s1 <? length s)%nat with true by (symmetry; apply Nat.ltb_lt; lia).
    apply IH; auto. lia.
Qed.

Lemma plus_or_same r body :
  complete_for total r body ->
  forall s c s' c',
    matches total (OpStar r) s c s' c' ->
    forall k c0, accepts k s' -> is_Some (plus body k s c0) \/ s' = s.
Proof.
  intros Hb s c s' c' H. remember (OpStar r) as R eqn:HR.
  induction H as [| | | | | | r' s c s1 c1 s2 c2 H1 _ H2 IH| | | | | |];
    try discriminate HR.
  - by right.
  - injection HR as ->. specialize (IH eq_refl). intros k c0 Hk.
    destruct (matches_shorter _ _ _ _ _ _ H1) as [Hle Heq].
    destruct (decide (length s1 = length s)) as [E|E].
    { rewrite <- (Heq E). by apply IH. }
    left. unfold plus. eapply Hb; [exact H1|]. intros c''.
    replace (length s1 <? length s)%nat with true by (symmetry; apply Nat.ltb_lt; lia).
    eapply loop_complete; eauto.
Qed.

Lemma plus_complete r body :
  complete_for total r body -> complete_for total (OpPlus r) (plus body).
Proof.
  intros Hb s c s' c' H k c0 Hk.
  inversion H as [| | | | | | |r' s0 c1 s1 c1' s2 c2 H1 H2| | | | |]; subst.
  destruct (matches_shorter _ _ _ _ _ _ H1) as [Hle Heq].
  destruct (decide (length s1 = length s)) as [E|E].
  - specialize (Heq E). subst s1.
    destruct (plus_or_same r body Hb _ _ _ _ H2 k c0 Hk) as [?| ->]; [done|].
    unfold plus. eapply Hb; [exact H1|]. intros c''.
    by rewrite Nat.ltb_irrefl.
  - unfold plus. eapply Hb; [exact H1|]. intros c''.
    replace (length s1 <? length s)%nat with true by (symmetry; apply Nat.ltb_lt; lia).
    eapply loop_complete; eauto.
Qed.

Lemma run_complete r : complete_for total r (run total r).
Proof.
  induction r as [|cl| | |i r IH|r IH|r IH|r IH|r1 IH1 r2 IH2|r1 IH1 r2 IH2];
    intros s c s' c' H k c0 Hk; simpl.
  - inversion H; subst. apply Hk.
  - inversion H as [|cl' ch s0 c1 Hc| | | | | | | | | | |]; subst. rewrite Hc. apply Hk.
  - inversion H; subst. rewrite Nat.eqb_refl. apply Hk.
  - inversion H; subst. apply Hk.
  - inversion H; subst. eapply IH; [eassumption|]. intros c''. apply Hk.
  - destruct (nullable r).
    + destruct (plus_or_same r _ IH _ _ _ _ H k c0 Hk) as [Hp| ->].
      * unfold orelse. by destruct (plus _ _ s c0).
      * unfold orelse. destruct (plus _ _ s c0); [done|apply Hk].
    + eapply loop_complete; eauto.
  - eapply plus_complete; eauto.
  - unfold orelse. inversion H; subst.
    + destruct (run _ r k s' c0); [done|apply Hk].
    + destruct (run _ r k s c0) eqn:E; [done|].
      exfalso. eapply is_Some_None. rewrite <- E. eapply IH; eauto.
  - inversion H; subst. eapply IH1; [eassumption|].
    intros c''. eapply IH2; eauto.
  - unfold orelse. inversion H; subst.
    + destruct (run _ r1 k s c0) eqn:E; [done|].
      exfalso. eapply is_Some_None. rewrite <- E. eapply IH1; eauto.
    + destruct (run _ r1 k s c0); [done|]. eapply IH2; eauto.
Qed.
End Completeness.

Section LangFacts.
Import regexp Lang.

Lemma lang_nil_nullable r w : lang r w -> w = [] -> nullable r = true.
Proof.
  induction 1; intros Hw; simpl; auto; try discriminate.
  - apply app_eq_nil in Hw as [-> _]. auto.
  - apply app_eq_nil in Hw as [-> ->]. rewrite IHlang1, IHlang2; auto.
  - rewrite IHlang; auto.
  - rewrite IHlang; auto. apply orb_true_r.
Qed.

Lemma lang_firsts r w :
  lang r w -> forall ch w', w = ch :: w' -> firsts r ch = true.
Proof.
  induction 1; intros ch' w' Hw; simpl; try discriminate; eauto.
  - by injection Hw as -> _.
  - destruct w1; simpl in Hw; [eauto|]. injection Hw as -> _. eauto.
  - destruct w1; simpl in Hw; [eauto|]. injection Hw as -> _. eauto.
  - destruct w1 as [|x w1]; simpl in Hw.
    + erewrite (lang_nil_nullable r1), IHlang2; eauto. apply orb_true_r.
    + injection Hw as -> _. erewrite IHlang1; eauto.
  - erewrite IHlang; eauto.
  - erewrite IHlang; eauto. apply orb_true_r.
Qed.

Lemma in_all_ascii c : In c all_ascii.
Proof.
  unfold all_ascii. rewrite <- (ascii_nat_embedding c).
  apply in_map, in_seq. pose proof (nat_ascii_bounded c). lia.
Qed.

Lemma class_within_sound Q cl c :
  class_within Q cl = true -> class_matches cl c = true -> Q c = true.
Proof.
  unfold class_within. rewrite forallb_forall. intros H Hc.
  specialize (H c (in_all_ascii c)). by rewrite Hc in H.
Qed.

Lemma needs_sound Q r w :
  needs Q r = true -> lang r w -> Exists (fun c => Q c = true) w.
Proof.
  intros Hn Hl. induction Hl; simpl in Hn; try discriminate; auto.
  - constructor. eapply class_within_sound; eauto.
  - apply Exists_app. auto.
  - apply Exists_app. apply orb_true_iff in Hn as [Hn|Hn]; auto.
  - apply andb_true_iff in Hn as [Hn _]. auto.
  - apply andb_true_iff in Hn as [_ Hn]. auto.
Qed.

Lemma matches_alternatives total r s c s' c' :
  matches total r s c s' c' ->
  exists a, In a (alternatives r) /\ matches total a s c s' c'.
Proof.
  revert s c s' c'.
  induction r as [|cl| | |i r IH|r IH|r IH|r IH|r1 IH1 r2 IH2|r1 IH1 r2 IH2];
    intros s c s' c' H; try (eexists; split; [by left|done]).
  inversion H; subst.
  - eexists. split; [by left|done].
  - destruct (IH2 _ _ _ _ H6) as (a & Ha & Hm).
    exists a. split; [by right|done].
Qed.

Lemma search_Some re input fuel start caps :
  search re input fuel start = Some caps ->
  exists st, (start <= st < start + fuel)%nat /\ match_at re input st = Some caps.
Proof.
  revert start. induction fuel as [|fuel IH]; intros start H; simpl in H; [discriminate|].
  destruct (match_at re input start) as [x|] eqn:E.
  - injection H as ->. exists start. split; [lia|done].
  - apply IH in H as (st & ? & ?). exists st. split; [lia|done].
Qed.

Lemma match_at_sound re input st caps :
  match_at re input st = Some caps ->
  exists s' caps',
    matches (length input) (expr re) (drop st input)
            (replicate (S (numSubexp re)) None) s' caps' /\
    caps = <[O := Some (st, length input - length s')%nat]> caps'.
Proof.
  intros H. unfold match_at in H.
  apply run_sound in H as (s' & caps' & Hm & E).
  exists s', caps'. split; [done|]. by injection E as <-.
Qed.

Lemma match_at_complete re input s' caps' :
  matches (length input) (expr re) input (replicate (S (numSubexp re)) None) s' caps' ->
  FindStringSubmatch re input <> [].
Proof.
  intros H. unfold FindStringSubmatch. simpl.
  assert (Hs : is_Some (match_at re input O)).
  { unfold match_at. rewrite drop_0. eapply run_complete; [exact H|]. by intros c. }
  destruct Hs as [caps Hc]. rewrite Hc.
  apply match_at_sound in Hc as (s1 & c1 & Hm & ->).
  apply matches_caps_length in Hm. rewrite length_replicate in Hm.
  destruct c1; [discriminate|]. simpl. discriminate.
Qed.
End LangFacts.

(** ** What a match of the lexer's pattern looks like *)

Section EskipMatch.
Import regexp Lang.

Lemma eskipRx_compiled : MustCompile eskipPattern = Some eskipRx.
Proof. vm_compute. reflexivity. Qed.

Lemma eskipRx_not_nullable : nullable (expr eskipRx) = false.
Proof. reflexivity. Qed.

Lemma eskipRx_anchored input st caps :
  match_at eskipRx input st = Some caps -> length (drop st input) = length input.
Proof.
  unfold match_at. cbv [eskipRx expr]. cbn [run].
  destruct (length (drop st input) =? length input)%nat eqn:E; [|discriminate].
  intros _. by apply Nat.eqb_eq in E.
Qed.

(** A match starts at the beginning of the input. *)
Lemma eskip_find input :
  FindStringSubmatch eskipRx input <> [] ->
  exists rest caps,
    matches (length input) (expr eskipRx) input (replicate 20 None) rest caps /\
    FindStringSubmatch eskipRx input =
      map (submatch input) (<[O := Some (O, length input - length rest)%nat]> caps).
Proof.
  unfold FindStringSubmatch.
  destruct (search _ _ _ _) as [caps|] eqn:E; [intros _|done].
  apply search_Some in E as (st & Hst & E).
  pose proof (eskipRx_anchored _ _ _ E) as Ha.
  rewrite length_drop in Ha.
  assert (st = O) as -> by lia.
  apply match_at_sound in E as (s' & caps' & Hm & ->).
  rewrite drop_0 in Hm. by exists s', caps'.
Qed.

(** It is not empty. *)
Lemma eskip_find_word input :
  FindStringSubmatch eskipRx input <> [] ->
  exists w rest caps,
    input = w ++ rest /\ w <> [] /\ lang (expr eskipRx) w /\
    length caps = 20%nat /\
    matches (length input) (expr eskipRx) input (replicate 20 None) rest caps /\
    FindStringSubmatch eskipRx input =
      map (submatch input) (<[O := Some (O, length w)]> caps).
Proof.
  intros H. destruct (eskip_find _ H) as (rest & caps & Hm & Hf).
  destruct (matches_lang _ _ _ _ _ _ Hm) as (w & Hw & Hl).
  exists w, rest, caps. repeat split; auto.
  - intros ->. by apply lang_nil_nullable in Hl.
  - by apply matches_caps_length in Hm.
  - rewrite Hf. do 4 f_equal. rewrite Hw at 1. rewrite length_app. lia.
Qed.
End EskipMatch.

(** ** One call of [Lex] *)

Lemma slice_suffix (w rest : gostring) :
  slice (w ++ rest) (len w) (len (w ++ rest)) = Some rest.
Proof.
  unfold slice, len. rewrite length_app.
  replace (0 <=? Z.of_nat (length w)) with true by (symmetry; apply Z.leb_le; lia).
  replace (Z.of_nat (length w) <=? Z.of_nat (length w + length rest)%nat) with true
    by (symmetry; apply Z.leb_le; lia).
  rewrite Z.leb_refl. simpl.
  rewrite Nat2Z.id, drop_app_length.
  rewrite take_ge; [done|lia].
Qed.

Lemma len_list_zero {A} (m : list A) : (len_list m =? 0) = true <-> m = [].
Proof.
  unfold len_list. destruct m; simpl; split; intros H; reflexivity || discriminate.
Qed.

(** The call that finds no match: the offset is stepped, the last raw
    text is cleared, the error is recorded and [-1] is returned. *)
Lemma Lex_no_match l lval :
  code l <> [] ->
  regexp.FindStringSubmatch (rx l) (code l) = [] ->
  Lex l lval =
    Some (Error (set_lastRaw (set_lastPosition l (wrap64 (lastPosition l + len (lastRaw l)))) [])
                (bytes "invalid token"),
          lval, minus1).
Proof.
  intros Hc Hm. unfold Lex.
  destruct (len (code l) =? 0) eqn:E; [by apply len_zero in E|].
  unfold matchToken. simpl. rewrite Hm. reflexivity.
Qed.

(** The call at the end of the input. *)
Lemma Lex_done l lval : code l = [] -> Lex l lval = Some (l, lval, minus1).
Proof. intros H. unfold Lex. by rewrite H. Qed.

Lemma getToken_loop_total trxs (m : list gostring) :
  Forall (fun trx => 0 <= matchIndex trx < len_list m) trxs ->
  is_Some (getToken_loop trxs m).
Proof.
  induction 1 as [|trx trxs [H0 H1] _ IH]; simpl; [done|].
  unfold index. destruct (matchIndex trx <? 0) eqn:E; [apply Z.ltb_lt in E; lia|].
  destruct (lookup_lt_is_Some_2 m (Z.to_nat (matchIndex trx))) as [s ->].
  { unfold len_list in H1. lia. }
  simpl. by destruct (negb (len s =? 0)).
Qed.

(** The token [getToken] returns is that of an entry of the table whose
    group is not empty, with the text of that group. *)
Lemma getToken_loop_Some trxs m t s :
  getToken_loop trxs m = Some (const t, s) ->
  exists trx, trx ∈ trxs /\ token trx = t /\ s <> [] /\
              0 <= matchIndex trx /\ m !! Z.to_nat (matchIndex trx) = Some s.
Proof.
  induction trxs as [|trx trxs IH]; simpl; [discriminate|].
  unfold index. destruct (matchIndex trx <? 0) eqn:E; [discriminate|].
  destruct (m !! Z.to_nat (matchIndex trx)) as [s'|] eqn:Hs; [|discriminate]. simpl.
  destruct (len s' =? 0) eqn:El; simpl.
  - intros H. apply IH in H as (trx' & ? & ?). exists trx'. split; [by right|done].
  - intros H. injection H as <- <-. exists trx. split; [by left|].
    repeat split; auto.
    + intros ->. discriminate.
    + apply Z.ltb_ge in E. lia.
Qed.

Lemma eskipTokenRxs_in_range (m : list gostring) :
  length m = 20%nat ->
  Forall (fun trx => 0 <= matchIndex trx < len_list m) eskipTokenRxs.
Proof.
  intros H. unfold len_list. rewrite H.
  unfold eskipTokenRxs. simpl.
  repeat (constructor; [split; vm_compute; congruence|]).
  constructor.
Qed.


(** The call that finds the match [w], with the groups [caps]. *)
Lemma Lex_found l lval w rest caps :
  well_formed l ->
  code l = w ++ rest -> w <> [] -> length caps = 20%nat ->
  regexp.FindStringSubmatch eskipRx (code l) =
    map (regexp.submatch (code l)) (<[O := Some (O, length w)]> caps) ->
  exists t s,
    getToken_loop eskipTokenRxs (regexp.FindStringSubmatch eskipRx (code l)) = Some (t, s) /\
    Lex l lval =
      Some ({| tokenRxs := tokenRxs l; rx := rx l; code := rest; lastToken := s;
               lastRaw := w;
               lastPosition := wrap64 (lastPosition l + len (lastRaw l));
               err := err l |},
            {| sym_token := s |}, t).
Proof.
  intros [Ht Hr] Hcode Hw Hl Hfind.
  assert (Hc : code l <> []).
  { rewrite Hcode. by destruct w. }
  assert (Hlen : length (regexp.FindStringSubmatch eskipRx (code l)) = 20%nat).
  { by rewrite Hfind, length_map, length_insert. }
  destruct (getToken_loop_total eskipTokenRxs _ (eskipTokenRxs_in_range _ Hlen)) as [[t s] Hg].
  exists t, s. split; [done|].
  unfold Lex. destruct (len (code l) =? 0) eqn:E; [by apply len_zero in E|].
  unfold matchToken. simpl. rewrite Hr.
  destruct (len_list _ =? 0) eqn:E2.
  { apply len_list_zero in E2. by rewrite E2 in Hlen. }
  assert (Hm0 : index (regexp.FindStringSubmatch eskipRx (code l)) 0 = Some w).
  { unfold index. simpl. rewrite Hfind, list_lookup_fmap, list_lookup_insert_eq by lia.
    simpl. rewrite Hcode, drop_0, Nat.sub_0_r. by rewrite take_app_length. }
  rewrite Hm0. simpl. rewrite Hcode at 1 2. rewrite slice_suffix. simpl.
  rewrite E2. unfold getToken. simpl. rewrite Ht, Hg. simpl.
  unfold set_lastToken. simpl. congruence.
Qed.

(** The call that finds a match. *)
Lemma Lex_match l lval :
  well_formed l ->
  code l <> [] ->
  regexp.FindStringSubmatch eskipRx (code l) <> [] ->
  exists w rest t s,
    code l = w ++ rest /\ w <> [] /\
    getToken_loop eskipTokenRxs (regexp.FindStringSubmatch eskipRx (code l)) = Some (t, s) /\
    Lex l lval =
      Some ({| tokenRxs := tokenRxs l; rx := rx l; code := rest; lastToken := s;
               lastRaw := w;
               lastPosition := wrap64 (lastPosition l + len (lastRaw l));
               err := err l |},
            {| sym_token := s |}, t).
Proof.
  intros Hwf Hc Hm.
  destruct (eskip_find_word _ Hm) as (w & rest & caps & Hcode & Hw & _ & Hl & _ & Hfind).
  destruct (Lex_found l lval w rest caps Hwf Hcode Hw Hl Hfind) as (t & s & Hg & HL).
  by exists w, rest, t, s.
Qed.

Lemma Lex_well_formed l lval l' lval' t :
  Lex l lval = Some (l', lval', t) -> well_formed l -> well_formed l'.
Proof.
  unfold Lex, well_formed. destruct (len (code l) =? 0); [by intros [= <- _ _]|].
  unfold matchToken. simpl.
  destruct (len_list _ =? 0) eqn:E; simpl.
  - rewrite E. by intros [= <- _ _].
  - destruct (index _ 0) as [m0|]; [simpl|discriminate].
    destruct (slice _ _ _) as [rest|]; [simpl|discriminate].
    rewrite E. destruct (getToken _ _) as [[t' s]|]; [simpl|discriminate].
    by intros [= <- _ _].
Qed.

Lemma session_well_formed input l : session input l -> well_formed l.
Proof.
  induction 1 as [l H|l lval l' lval' t _ IH H].
  - rewrite newLexer_initial in H. injection H as <-. by split.
  - eapply Lex_well_formed; eauto.
Qed.

(** ** Lexical errors (C8, C10) *)

Lemma Error_message l e :
  err (Error l e) =
    Some (bytes "parse failed after token " ++ lastToken l ++
          bytes ", position " ++ Itoa (lastPosition l) ++ bytes ": " ++ e).
Proof. unfold Error. cbn. by rewrite app_nil_r. Qed.

(** C8. When the remaining input is not matched by the pattern, [Lex]
    returns [-1], leaves the caller's value alone and records the message
    "parse failed after token T, position P: invalid token", where T is
    the last token and P the offset after its step. For the input [@]
    this is the message with an empty token and the offset 0, and no
    token is returned. *)
Theorem Lex_invalid_token :
  (forall l lval,
     code l <> [] ->
     regexp.FindStringSubmatch (rx l) (code l) = [] ->
     exists l',
       Lex l lval = Some (l', lval, minus1) /\
       lastToken l' = lastToken l /\
       lastPosition l' = wrap64 (lastPosition l + len (lastRaw l)) /\
       err l' = Some (bytes "parse failed after token " ++ lastToken l' ++
                      bytes ", position " ++ Itoa (lastPosition l') ++
                      bytes ": invalid token")) /\
  (forall lval,
     exists l0 l',
       newLexer (bytes "@") = Some l0 /\
       Lex l0 lval = Some (l', lval, minus1) /\
       lastToken l' = [] /\ lastPosition l' = 0 /\
       err l' = Some (bytes "parse failed after token , position 0: invalid token")).
Proof.
  split.
  - intros l lval Hc Hm. eexists. split; [by apply Lex_no_match|].
    split; [done|]. split; [done|]. by rewrite Error_message.
  - intros lval. do 2 eexists. split; [reflexivity|].
    split; [by vm_compute|]. by vm_compute.
Qed.

Lemma Lex_invalid_token_witness :
  exists l',
    Lex (initial (bytes "@")) {| sym_token := [] |} = Some (l', {| sym_token := [] |}, minus1) /\
    lastToken l' = [] /\
    lastPosition l' = wrap64 (0 + 0) /\
    err l' = Some (bytes "parse failed after token " ++ lastToken l' ++
                   bytes ", position " ++ Itoa (lastPosition l') ++
                   bytes ": invalid token").
Proof.
  apply (proj1 Lex_invalid_token (initial (bytes "@")) {| sym_token := [] |}).
  - discriminate.
  - vm_compute. reflexivity.
Defined.

(** C10. After a call of [Lex] that found no match and recorded the
    error, every further call returns [-1] again, goes through the same
    error report, and leaves the whole state as it was: the remaining
    input, the offset and the message of the recorded error. *)
Theorem Lex_error_repeats l lval :
  code l <> [] ->
  regexp.FindStringSubmatch (rx l) (code l) = [] ->
  exists l1,
    Lex l lval = Some (l1, lval, minus1) /\
    is_Some (err l1) /\
    (forall lval', Lex l1 lval' = Some (Error l1 (bytes "invalid token"), lval', minus1)) /\
    Error l1 (bytes "invalid token") = l1 /\
    (forall n lval', exists l2,
       LexN n l1 lval' = Some (l2, lval', replicate n minus1) /\
       code l2 = code l1 /\ lastPosition l2 = lastPosition l1 /\ err l2 = err l1).
Proof.
  intros Hc Hm.
  set (l1 := Error (set_lastRaw (set_lastPosition l (wrap64 (lastPosition l + len (lastRaw l)))) [])
                   (bytes "invalid token")).
  assert (Hfix : Error l1 (bytes "invalid token") = l1) by reflexivity.
  assert (Hnext : forall lval', Lex l1 lval' = Some (Error l1 (bytes "invalid token"), lval', minus1)).
  { intros lval'. rewrite Lex_no_match by done.
    unfold l1 at 1 2 3. simpl lastPosition. simpl lastRaw.
    rewrite len_nil, Z.add_0_r, wrap64_idem. reflexivity. }
  exists l1. split; [by apply Lex_no_match|]. split; [by eexists|].
  split; [done|]. split; [done|].
  intros n lval'. exists l1. split; [|done].
  induction n as [|n IH]; simpl; [done|].
  rewrite Hnext, Hfix. simpl. rewrite IH. reflexivity.
Qed.

Lemma Lex_error_repeats_witness :
  exists l1,
    Lex (initial (bytes "@")) {| sym_token := [] |} = Some (l1, {| sym_token := [] |}, minus1) /\
    is_Some (err l1) /\
    (forall lval', Lex l1 lval' = Some (Error l1 (bytes "invalid token"), lval', minus1)) /\
    Error l1 (bytes "invalid token") = l1 /\
    (forall n lval', exists l2,
       LexN n l1 lval' = Some (l2, lval', replicate n minus1) /\
       code l2 = code l1 /\ lastPosition l2 = lastPosition l1 /\ err l2 = err l1).
Proof.
  apply (Lex_error_repeats (initial (bytes "@")) {| sym_token := [] |}).
  - discriminate.
  - vm_compute. reflexivity.
Defined.

(** ** The filter chain (C9) *)

Section ChainFacts.
Import chain.
Context {W : Type}.

Lemma indexes_S i0 n : indexes i0 (S n) = i0 :: indexes (i0 + 1) n.
Proof.
  unfold indexes. simpl. rewrite Z.add_0_r. f_equal.
  rewrite <- fmap_S_seq, <- list_fmap_compose.
  apply list_fmap_ext. intros _ k _. simpl. lia.
Qed.



End ChainFacts.



(** ** Literal converters (C5, C6, C7) *)

Lemma slice_whole_but_ends (q1 q2 : ascii) (body : gostring) :
  slice (q1 :: body ++ [q2]) 1 (len (q1 :: body ++ [q2]) - 1) = Some body.
Proof.
  unfold slice, len. simpl length. rewrite length_app. simpl length.
  replace (1 <=? Z.of_nat (S (length body + 1)) - 1) with true
    by (symmetry; apply Z.leb_le; lia).
  replace (Z.of_nat (S (length body + 1)) - 1 <=? Z.of_nat (S (length body + 1))) with true
    by (symmetry; apply Z.leb_le; lia).
  simpl. f_equal.
  replace (Z.to_nat (Z.of_nat (S (length body + 1)) - 1 - 1)) with (length body) by lia.
  by rewrite drop_0, take_app_length.
Qed.

Lemma slice_first (c : ascii) (s : gostring) : slice (c :: s) 0 1 = Some [c].
Proof.
  unfold slice, len. simpl length.
  replace (1 <=? Z.of_nat (S (length s))) with true by (symmetry; apply Z.leb_le; lia).
  reflexivity.
Qed.

Section NumberFacts.
Import regexp Lang strconv.

Lemma numberPattern_in_table :
  Some numberPattern = group_sub 8 (expr eskipRx) /\
  (exists trx, eskipTokenRxs !! 5%nat = Some trx /\ token trx = Token.number /\
               matchIndex trx = 8 /\
               Some numberPattern = expr <$> Compile (expression trx)).
Proof. split; [reflexivity|]. eexists. repeat split. Qed.

Lemma digit_isDigit c : isDigit c = true -> is_Some (digit c).
Proof.
  destruct c as [[|] [|] [|] [|] [|] [|] [|] [|]]; vm_compute; intros H;
    try discriminate H; by eexists.
Qed.

Lemma class_single c ch :
  class_matches (Ranges false [(c, c)]) ch = true -> ch = c.
Proof.
  unfold class_matches, in_range. simpl. rewrite orb_false_r.
  intros H. apply andb_true_iff in H as [H1 H2].
  apply N.leb_le in H1, H2.
  rewrite <- (ascii_N_embedding ch), <- (ascii_N_embedding c). f_equal. lia.
Qed.

Lemma lang_star_class cl w :
  lang (OpStar (OpCharClass cl)) w -> Forall (fun c => class_matches cl c = true) w.
Proof.
  remember (OpStar (OpCharClass cl)) as r eqn:Hr. induction 1; try discriminate.
  - constructor.
  - injection Hr as ->. apply Forall_app. split; [|auto].
    match goal with H : lang (OpCharClass _) _ |- _ => inversion H; subst end.
    by repeat constructor.
Qed.

Lemma lang_number_shape s :
  lang numberPattern s ->
  exists a b c, s = a ++ b ++ c /\
    Forall (fun x => isDigit x = true) a /\ (b = [] \/ b = ["."%char]) /\
    Forall (fun x => isDigit x = true) c /\ c <> [].
Proof.
  unfold numberPattern. intros H.
  inversion H as [| | | | | | | | | |r1 r2 a bc Ha Hbc| |]; subst.
  inversion Hbc as [| | | | | | | | | |r1 r2 b c Hb Hc| |]; subst.
  exists a, b, c. split; [done|].
  split; [by apply lang_star_class in Ha|].
  split.
  - inversion Hb as [| | | | | | | |r|r w Hd| | |]; subst; [by left|right].
    inversion Hd as [|cl ch Hch| | | | | | | | | | |]; subst.
    f_equal. by apply class_single in Hch.
  - inversion Hc as [| | | | | | |r w1 w2 H1 H2| | | | |]; subst.
    apply lang_star_class in H2.
    inversion H1 as [|cl ch Hch| | | | | | | | | | |]; subst.
    split; [by constructor|done].
Qed.

Lemma read_digits_app a rest acc n :
  Forall (fun x => isDigit x = true) a ->
  exists acc', read_digits (a ++ rest) acc n = read_digits rest acc' (n + length a)%nat.
Proof.
  intros Ha. revert acc n. induction Ha as [|c a Hc _ IH]; intros acc n; simpl.
  - exists acc. by rewrite Nat.add_0_r.
  - destruct (digit_isDigit _ Hc) as [d ->].
    destruct (IH (10 * acc + d) (S n)) as [acc' ->]. exists acc'.
    by rewrite Nat.add_succ_r.
Qed.

Lemma round_decimal_no_syntax_error m k : snd (round_decimal m k) <> Some ErrSyntax.
Proof.
  unfold round_decimal. destruct m as [|p|p]; try discriminate.
  by destruct (SFdiv prec emax (S754_finite false p 0) _).
Qed.

(** On a text of the number pattern [ParseFloat] stays within the part
    modelled here and reports no syntax error. *)
Lemma ParseFloat_number other s :
  lang numberPattern s ->
  snd (ParseFloat other s) <> Some ErrSyntax /\
  forall other', ParseFloat other' s = ParseFloat other s.
Proof.
  intros H. apply lang_number_shape in H as (a & b & c & -> & Ha & Hb & Hc & Hne).
  unfold ParseFloat.
  destruct Hb as [->| ->]; simpl app.
  - rewrite app_nil_r || idtac.
    destruct (read_digits_app (a ++ c) [] 0 O) as [m1 E].
    { by apply Forall_app. }
    rewrite app_nil_r in E. rewrite E. simpl.
    rewrite length_app. destruct c; [done|]. simpl length.
    replace (length a + S (length c))%nat with (S (length a + length c)) by lia.
    simpl. split; [apply round_decimal_no_syntax_error|done].
  - destruct (read_digits_app a ("."%char :: c) 0 O Ha) as [m1 ->].
    simpl.
    destruct (read_digits_app c [] m1 O Hc) as [m2 E].
    rewrite app_nil_r in E. rewrite E. simpl.
    destruct c; [done|]. simpl length.
    replace (length a + S (length c))%nat with (S (length a + length c)) by lia.
    simpl. split; [apply round_decimal_no_syntax_error|done].
Qed.
End NumberFacts.

(** ** The token of a match *)

Section EskipToken.
Import regexp Lang.

Lemma eskip_structure :
  expr eskipRx =
    OpConcat OpBeginText
      (OpConcat (OpStar skipBefore)
         (OpConcat (OpCapture 2 eskipTokens) (OpStar skipAfter))).
Proof. reflexivity. Qed.

Lemma tokens_alternatives :
  alternatives eskipTokens =
    map (fun trx => OpCapture (groupIndex trx) (tokenGroup trx)) eskipTokenRxs.
Proof. reflexivity. Qed.

Lemma table_ok : forallb table_entry_ok eskipTokenRxs = true.
Proof. vm_compute. reflexivity. Qed.

Lemma groupIndex_NoDup : NoDup (groupIndex <$> eskipTokenRxs).
Proof. apply (bool_decide_unpack _). by vm_compute. Qed.

Lemma table_entry trx :
  In trx eskipTokenRxs ->
  0 <= matchIndex trx /\ (0 < groupIndex trx < 20)%nat /\ groupIndex trx <> 2%nat /\
  group_sub (groupIndex trx) (expr eskipRx) = Some (tokenGroup trx) /\
  nullable (tokenGroup trx) = false /\
  has_group (groupIndex trx) (OpStar skipBefore) = false /\
  has_group (groupIndex trx) (OpStar skipAfter) = false /\
  forall trx', In trx' eskipTokenRxs -> has_group (groupIndex trx) (tokenGroup trx') = false.
Proof.
  intros Hin. pose proof table_ok as H. rewrite forallb_forall in H.
  specialize (H trx Hin). unfold table_entry_ok in H.
  repeat match type of H with _ && _ = true => apply andb_true_iff in H as [H ?] end.
  repeat match goal with
         | H : negb _ = true |- _ => apply negb_true_iff in H
         | H : (_ <=? _) = true |- _ => apply Z.leb_le in H
         | H : (_ <? _)%nat = true |- _ => apply Nat.ltb_lt in H
         | H : (_ =? _)%nat = false |- _ => apply Nat.eqb_neq in H
         | H : bool_decide _ = true |- _ => apply bool_decide_eq_true in H
         end.
  repeat split; auto.
  - unfold tokenGroup. by destruct (group_sub _ _).
  - intros trx' Hin'.
    match goal with H : forallb _ _ = true |- _ => rewrite forallb_forall in H;
      specialize (H trx' Hin') end.
    by apply negb_true_iff.
Qed.

(** A match is made of skipped text, the text of exactly one token
    group, which is not empty, and skipped text again; at the end the
    group of that token holds its text and the groups of the other
    tokens hold nothing. *)
Lemma eskip_token input rest caps :
  matches (length input) (expr eskipRx) input (replicate 20 None) rest caps ->
  exists k trx w0 w w3 c1 c2 c3,
    eskipTokenRxs !! k = Some trx /\
    input = w0 ++ w ++ w3 ++ rest /\ w <> [] /\ lang (tokenGroup trx) w /\
    matches (length input) (OpStar skipBefore) input (replicate 20 None) (w ++ w3 ++ rest) c1 /\
    matches (length input) (tokenGroup trx) (w ++ w3 ++ rest) c1 (w3 ++ rest) c2 /\
    matches (length input) (OpStar skipAfter) (w3 ++ rest) c3 rest caps /\
    caps !! groupIndex trx = Some (Some (length w0, length w0 + length w)%nat) /\
    forall k' trx', k' <> k -> eskipTokenRxs !! k' = Some trx' ->
                    caps !! groupIndex trx' = Some None.
Proof.
  rewrite eskip_structure. intros H.
  inversion H as [| | | | | | | | | |? ? ? ? s0 c0 ? ? Hb H1| |]; subst. clear H.
  inversion Hb; subst. clear Hb.
  inversion H1 as [| | | | | | | | | |? ? ? ? s1 c1 ? ? Hbefore H2| |]; subst. clear H1.
  inversion H2 as [| | | | | | | | | |? ? ? ? s2 c2 ? ? Hcap Hafter| |]; subst. clear H2.
  inversion Hcap as [| | | |? ? ? ? ? c2' Htok| | | | | | | |]; subst. clear Hcap.
  apply matches_alternatives in Htok as (a & Ha & Htok).
  rewrite tokens_alternatives in Ha. apply in_map_iff in Ha as (trx & <- & Hin).
  inversion Htok as [| | | |? ? ? ? ? c2'' Hsub| | | | | | | |]; subst. clear Htok.
  destruct (table_entry trx Hin) as (H0 & Hidx & Hne2 & Hg & Hnull & Hfb & Hfa & Hothers).
  destruct (matches_lang _ _ _ _ _ _ Hbefore) as (w0 & Hw0 & _).
  destruct (matches_lang _ _ _ _ _ _ Hsub) as (w & Hw & Hlw).
  destruct (matches_lang _ _ _ _ _ _ Hafter) as (w3 & Hw3 & _).
  pose proof (matches_caps_length _ _ _ _ _ _ Hbefore) as Hl1.
  pose proof (matches_caps_length _ _ _ _ _ _ Hsub) as Hl2.
  rewrite length_replicate in Hl1.
  apply list_elem_of_In, list_elem_of_lookup in Hin as [k Hk].
  subst s2 s1.
  exists k, trx, w0, w, w3, c1, c2''. eexists.
  split; [done|]. split; [done|].
  split; [intros ->; apply lang_nil_nullable in Hlw; [congruence|done]|].
  split; [done|]. split; [exact Hbefore|].
  split; [done|]. split; [exact Hafter|].
  split.
  - rewrite (matches_frame _ _ _ _ _ _ _ Hafter Hfa).
    rewrite list_lookup_insert_ne by done.
    rewrite list_lookup_insert_eq by lia.
    rewrite Hw0, !length_app. do 3 f_equal; lia.
  - intros k' trx' Hk' Hin'.
    assert (Hi' : In trx' eskipTokenRxs).
    { apply list_elem_of_In, list_elem_of_lookup. eauto. }
    destruct (table_entry trx' Hi') as (_ & Hidx' & Hne2' & _ & _ & Hfb' & Hfa' & Hothers').
    assert (groupIndex trx' <> groupIndex trx).
    { intros E. apply Hk'.
      eapply (NoDup_lookup _ _ _ _ groupIndex_NoDup);
        rewrite list_lookup_fmap; [rewrite Hin'|rewrite Hk]; simpl; [done|by rewrite E]. }
    rewrite (matches_frame _ _ _ _ _ _ _ Hafter Hfa').
    rewrite !list_lookup_insert_ne by done.
    rewrite (matches_frame _ _ _ _ _ _ _ Hsub).
    + rewrite (matches_frame _ _ _ _ _ _ _ Hbefore Hfb').
      apply lookup_replicate_2. lia.
    + apply Hothers'. apply list_elem_of_In, list_elem_of_lookup. eauto.
Qed.

Lemma getToken_loop_first trxs (m : list gostring) k trx s :
  trxs !! k = Some trx ->
  index m (matchIndex trx) = Some s -> s <> [] ->
  (forall k' trx', k' <> k -> trxs !! k' = Some trx' -> index m (matchIndex trx') = Some []) ->
  getToken_loop trxs m = Some (const (token trx), s).
Proof.
  revert k. induction trxs as [|t trxs IH]; intros k Hk Hs Hne Ho; [done|].
  destruct k as [|k]; simpl in *.
  - injection Hk as ->. rewrite Hs. simpl.
    destruct (len s =? 0) eqn:E; [by apply len_zero in E|done].
  - rewrite (Ho O t); [|lia|done]. simpl.
    apply (IH k); auto. intros k' trx' Hk' Hl. apply (Ho (S k')); [lia|done].
Qed.
End EskipToken.

(** A call of [Lex] that finds a match returns the token of one entry of
    the table, with a text of that entry's pattern, which is not empty;
    the match is skipped text, this text, and skipped text. *)
Theorem Lex_token l lval :
  well_formed l ->
  regexp.FindStringSubmatch eskipRx (code l) <> [] ->
  exists k trx w0 w w3 rest c1 c2,
    eskipTokenRxs !! k = Some trx /\
    code l = w0 ++ w ++ w3 ++ rest /\ w <> [] /\ Lang.lang (tokenGroup trx) w /\
    Lang.matches (length (code l)) (regexp.OpStar skipBefore) (code l) (replicate 20 None)
                 (w ++ w3 ++ rest) c1 /\
    Lang.matches (length (code l)) (tokenGroup trx) (w ++ w3 ++ rest) c1 (w3 ++ rest) c2 /\
    Lex l lval =
      Some ({| tokenRxs := tokenRxs l; rx := rx l; code := rest; lastToken := w;
               lastRaw := w0 ++ w ++ w3;
               lastPosition := wrap64 (lastPosition l + len (lastRaw l));
               err := err l |},
            {| sym_token := w |}, const (token trx)).
Proof.
  intros Hwf Hm.
  destruct (eskip_find _ Hm) as (rest & caps & Hmat & Hfind).
  destruct (eskip_token _ _ _ Hmat)
    as (k & trx & w0 & w & w3 & c1 & c2 & c3 & Hk & Hcode & Hw & Hlang & Hb & Ht & _ & Hi & Ho).
  assert (Hin : In trx eskipTokenRxs).
  { apply list_elem_of_In, list_elem_of_lookup. eauto. }
  destruct (table_entry trx Hin) as (H0 & Hidx & _).
  pose proof (matches_caps_length _ _ _ _ _ _ Hmat) as Hl.
  rewrite length_replicate in Hl.
  assert (Hfind' : regexp.FindStringSubmatch eskipRx (code l) =
                   map (regexp.submatch (code l))
                       (<[O := Some (O, length (w0 ++ w ++ w3))]> caps)).
  { rewrite Hfind. do 4 f_equal. rewrite Hcode at 1. rewrite !length_app. lia. }
  destruct (Lex_found l lval (w0 ++ w ++ w3) rest caps Hwf) as (t & s & Hg & HL); auto.
  { by rewrite <- !app_assoc. }
  { destruct w0; [|done]. by destruct w. }
  assert (Hidx_of : forall trx', In trx' eskipTokenRxs ->
            index (regexp.FindStringSubmatch eskipRx (code l)) (matchIndex trx')
            = regexp.submatch (code l) <$> caps !! groupIndex trx').
  { intros trx' Hin'. destruct (table_entry trx' Hin') as (H0' & Hidx' & _).
    unfold index. destruct (matchIndex trx' <? 0) eqn:E; [apply Z.ltb_lt in E; lia|].
    rewrite Hfind, list_lookup_fmap. fold (groupIndex trx').
    rewrite list_lookup_insert_ne by lia. done. }
  rewrite (getToken_loop_first eskipTokenRxs _ k trx w) in Hg; auto.
  - injection Hg as <- <-. exists k, trx, w0, w, w3, rest, c1, c2. repeat split; auto.
  - rewrite Hidx_of, Hi by done. simpl. f_equal.
    rewrite Hcode, drop_app_length.
    replace (length w0 + length w - length w0)%nat with (length w) by lia.
    by rewrite take_app_length.
  - intros k' trx' Hk' Hin'. rewrite Hidx_of.
    + by rewrite (Ho k' trx' Hk' Hin').
    + apply list_elem_of_In, list_elem_of_lookup. eauto.
Qed.

(** ** Inputs of whitespace and comments only (C1) *)

Section SkipOnly.
Import regexp Lang.

Lemma skipOnly_spaces ws s :
  Forall (fun c => isSpace c = true) ws ->
  skipOnly_from false (ws ++ s) = skipOnly_from false s.
Proof. induction 1 as [|c ws Hc _ IH]; simpl; [done|]. by rewrite Hc. Qed.

Lemma skipOnly_comment_line x s :
  Forall (fun c => Ascii.eqb c LF = false) x ->
  skipOnly_from true (x ++ LF :: s) = skipOnly_from false s.
Proof. induction 1 as [|c x Hc _ IH]; simpl; [done|]. by rewrite Hc. Qed.

Lemma skipOnly_opens ch s :
  skipOnly_from false (ch :: s) = true -> isSpace ch = false ->
  exists s', ch = slash /\ s = slash :: s' /\ skipOnly_from true s' = true.
Proof.
  simpl. intros H Hc. rewrite Hc in H. destruct s as [|d s']; [discriminate|].
  apply andb_true_iff in H as [H H3]. apply andb_true_iff in H as [H1 H2].
  apply Ascii.eqb_eq in H1, H2. subst. by exists s'.
Qed.

Lemma skipOnly_comment_start input :
  skipOnly input = true -> forallb isSpace input = false ->
  exists ws tail, input = ws ++ slash :: slash :: tail /\
                  Forall (fun c => isSpace c = true) ws.
Proof.
  unfold skipOnly. induction input as [|c input IH]; [discriminate|].
  intros H Hn. destruct (isSpace c) eqn:Hc.
  - simpl in H, Hn. rewrite Hc in H, Hn. simpl in Hn.
    destruct (IH H Hn) as (ws & tail & -> & Hws).
    exists (c :: ws), tail. split; [done|by constructor].
  - destruct (skipOnly_opens _ _ H Hc) as (s' & -> & -> & _).
    by exists [], s'.
Qed.

Lemma matches_star_class total cl ws s c :
  Forall (fun ch => class_matches cl ch = true) ws ->
  matches total (OpStar (OpCharClass cl)) (ws ++ s) c s c.
Proof.
  induction 1 as [|ch ws Hc _ IH]; simpl; [constructor|].
  econstructor; [by constructor|exact IH].
Qed.

(** What the proofs use of the skip group and the token groups,
    checked by computation. *)
Lemma skipBefore_eq :
  skipBefore =
    OpCapture 1
      (OpAlternate (OpStar (OpCharClass perl_space))
         (OpAlternate
            (OpConcat (OpCharClass (Literal slash))
               (OpConcat (OpCharClass (Literal slash))
                  (OpConcat (OpStar (OpCharClass AnyCharNotNL))
                     (OpConcat (OpQuest (OpCharClass (Literal CR)))
                        (OpCharClass (Literal LF))))))
            (OpConcat (OpCharClass (Literal slash))
               (OpConcat (OpCharClass (Literal slash))
                  (OpConcat (OpStar (OpCharClass AnyCharNotNL)) OpEndText))))).
Proof. reflexivity. Qed.

Lemma tokens_start_no_space :
  forallb (fun trx =>
             forallb (fun ch => implb (firsts (tokenGroup trx) ch) (negb (isSpace ch)))
                     all_ascii) eskipTokenRxs = true.
Proof. vm_compute. reflexivity. Qed.

Lemma tokens_start_slash :
  forallb (fun trx => implb (firsts (tokenGroup trx) slash) (groupIndex trx =? 10)%nat)
          eskipTokenRxs = true.
Proof. vm_compute. reflexivity. Qed.

Lemma lang_literal c w : lang (OpCharClass (Literal c)) w -> w = [c].
Proof.
  inversion 1 as [|cl ch Hc| | | | | | | | | | |]; subst.
  simpl in Hc. by apply Ascii.eqb_eq in Hc as ->.
Qed.

(** Skipped text leaves an input of whitespace and comments at the
    start of a line or of a comment's two slashes, never inside a
    comment. *)
Lemma skip_once total s c s' c' :
  matches total skipBefore s c s' c' ->
  skipOnly_from false s = true -> skipOnly_from false s' = true.
Proof.
  rewrite skipBefore_eq. intros H Hs.
  inversion H as [| | | |? ? ? ? ? c0 H1| | | | | | | |]; subst. clear H.
  inversion H1 as [| | | | | | | | | | |? ? ? ? ? ? Hl|? ? ? ? ? ? Hr]; subst; clear H1.
  - apply matches_lang in Hl as (ws & -> & Hws).
    apply lang_star_class in Hws. by rewrite skipOnly_spaces in Hs.
  - inversion Hr as [| | | | | | | | | | |? ? ? ? ? ? Hl|? ? ? ? ? ? Hr']; subst; clear Hr.
    + apply matches_lang in Hl as (w & -> & Hw).
      inversion Hw as [| | | | | | | | | |? ? w1 r1 H1 H2| |]; subst. clear Hw.
      inversion H2 as [| | | | | | | | | |? ? w2 r2 H3 H4| |]; subst. clear H2.
      inversion H4 as [| | | | | | | | | |? ? x r3 H5 H6| |]; subst. clear H4.
      inversion H6 as [| | | | | | | | | |? ? cr lf H7 H8| |]; subst. clear H6.
      apply lang_literal in H1, H3, H8. subst.
      apply lang_star_class in H5.
      assert (Hcr : Forall (fun ch => Ascii.eqb ch LF = false) (x ++ cr)).
      { apply Forall_app. split.
        - eapply Forall_impl; [exact H5|]. simpl. intros ch Hch.
          by apply negb_true_iff in Hch.
        - inversion H7 as [| | | | | | | |?|? ? H9| | |]; subst; [constructor|].
          apply lang_literal in H9 as ->. by repeat constructor. }
      simpl app in Hs. simpl in Hs.
      rewrite <- !app_assoc in Hs. rewrite (app_assoc x cr) in Hs.
      simpl app in Hs.
      by rewrite (skipOnly_comment_line (x ++ cr)) in Hs.
    + inversion Hr' as [| | | | | | | | | |? ? ? ? ? ? ? ? H1 H2| |]; subst. clear Hr'.
      inversion H2 as [| | | | | | | | | |? ? ? ? ? ? ? ? H3 H4| |]; subst. clear H2.
      inversion H4 as [| | | | | | | | | |? ? ? ? ? ? ? ? H5 H6| |]; subst. clear H4.
      by inversion H6; subst.
Qed.

Lemma skip_many total s c s' c' :
  matches total (OpStar skipBefore) s c s' c' ->
  skipOnly_from false s = true -> skipOnly_from false s' = true.
Proof.
  remember (OpStar skipBefore) as R eqn:HR.
  induction 1 as [| | | | | | r s c s1 c1 s2 c2 H1 _ H2 IH| | | | | |];
    try discriminate HR; [done|].
  injection HR as ->. intros Hs. apply IH; [done|]. eapply skip_once; eauto.
Qed.
End SkipOnly.

Section SkipOnlyLex.
Import regexp Lang.

Lemma eskipRx_needs_no_space :
  needs (fun c => negb (isSpace c)) (expr eskipRx) = true.
Proof. vm_compute. reflexivity. Qed.

(** Whitespace alone is not matched: the pattern asks for a token. *)
Lemma find_whitespace input :
  forallb isSpace input = true -> FindStringSubmatch eskipRx input = [].
Proof.
  intros Hs. destruct (decide (FindStringSubmatch eskipRx input = [])) as [|Hm]; [done|].
  destruct (eskip_find_word _ Hm) as (w & rest & caps & -> & _ & Hl & _).
  apply (needs_sound _ _ _ eskipRx_needs_no_space) in Hl.
  apply Exists_exists in Hl as (ch & Hin & Hch).
  rewrite forallb_forall in Hs. rewrite (Hs ch) in Hch; [done|].
  apply in_or_app. left. by apply list_elem_of_In.
Qed.

(** The two slashes of a comment, after whitespace, are matched: they
    are a regexp literal. *)
Lemma find_comment ws tail :
  Forall (fun c => isSpace c = true) ws ->
  FindStringSubmatch eskipRx (ws ++ slash :: slash :: tail) <> [].
Proof.
  intros Hws. eapply (match_at_complete eskipRx _ tail).
  rewrite eskip_structure.
  eapply matches_concat; [by constructor|].
  eapply matches_concat.
  { eapply matches_star_more; [|apply matches_star_nil].
    rewrite skipBefore_eq. apply matches_capture, matches_alt_l.
    by apply matches_star_class. }
  eapply matches_concat; [|apply matches_star_nil].
  apply matches_capture. cbv [eskipTokens eskipParts fst snd].
  do 7 apply matches_alt_r. apply matches_alt_l.
  apply matches_capture.
  eapply matches_concat; [by constructor|].
  eapply matches_concat; [apply matches_star_nil|by constructor].
Qed.

Lemma regexp_body_no_slash :
  firsts (OpStar (default OpEmptyMatch (group_sub 11 (expr eskipRx)))) slash = false.
Proof. reflexivity. Qed.

Lemma regexpliteral_eq :
  default OpEmptyMatch (group_sub 10 (expr eskipRx)) =
    OpConcat (OpCharClass (Literal slash))
      (OpConcat (OpStar (OpCapture 11 (default OpEmptyMatch (group_sub 11 (expr eskipRx)))))
         (OpCharClass (Literal slash))).
Proof. reflexivity. Qed.

(** In an input of whitespace and comments, a token can only be the two
    slashes of a comment, read as a regexp literal. *)
Lemma token_in_skipOnly trx w rest :
  In trx eskipTokenRxs ->
  lang (tokenGroup trx) w -> w <> [] ->
  skipOnly_from false (w ++ rest) = true ->
  groupIndex trx = 10%nat /\ w = [slash; slash].
Proof.
  intros Hin Hl Hw Hs. destruct w as [|ch w]; [done|]. clear Hw.
  pose proof (lang_firsts _ _ Hl ch w eq_refl) as Hf.
  pose proof tokens_start_no_space as H1. rewrite forallb_forall in H1.
  specialize (H1 trx Hin). rewrite forallb_forall in H1.
  specialize (H1 ch (in_all_ascii ch)). rewrite Hf in H1. simpl in H1.
  apply negb_true_iff in H1.
  destruct (skipOnly_opens _ _ Hs H1) as (s' & -> & Hs' & _).
  pose proof tokens_start_slash as H2. rewrite forallb_forall in H2.
  specialize (H2 trx Hin). rewrite Hf in H2. simpl in H2.
  apply Nat.eqb_eq in H2. split; [done|].
  unfold tokenGroup in Hl. rewrite H2, regexpliteral_eq in Hl.
  inversion Hl as [| | | | | | | | | |? ? w1 r1 Ha Hb| |]; subst. clear Hl.
  inversion Hb as [| | | | | | | | | |? ? body w2 Hc Hd| |]; subst. clear Hb.
  apply lang_literal in Ha, Hd. subst.
  match goal with H : [slash] ++ _ = slash :: w |- _ => simpl in H; injection H as <- end.
  destruct body as [|b body]; [done|].
  change (b :: (body ++ [slash]) ++ rest = slash :: s') in Hs'. injection Hs' as -> _.
  assert (Hc' : lang (OpStar (default OpEmptyMatch (group_sub 11 (expr eskipRx))))
                     (slash :: body)).
  { clear -Hc. remember (OpStar (OpCapture 11 _)) as R eqn:HR.
    remember (slash :: body) as w eqn:Hw. clear Hw.
    induction Hc; try discriminate HR; [constructor|].
    injection HR as ->. constructor; [|by apply IHHc2].
    by inversion Hc1. }
  pose proof (lang_firsts _ _ Hc' slash body eq_refl) as Hf'.
  by rewrite regexp_body_no_slash in Hf'.
Qed.
End SkipOnlyLex.

(** C1, as amended. For every input that is not empty and consists of
    whitespace only, the first call of [Lex] on the new lexer returns
    [-1], leaves the caller's value and the input as they are, and records
    the error "parse failed after token , position 0: invalid token": the
    pattern asks for a token, so that skipped text alone never matches. *)
Theorem Lex_whitespace_only (input : gostring) (lval : eskipSymType) :
  input <> [] ->
  forallb isSpace input = true ->
  exists l0 l',
    newLexer input = Some l0 /\
    Lex l0 lval = Some (l', lval, minus1) /\
    code l' = input /\
    lastToken l' = [] /\
    lastPosition l' = 0 /\
    err l' = Some (bytes "parse failed after token , position 0: invalid token").
Proof.
  intros Hne Hsp. exists (initial input). eexists.
  split; [apply newLexer_initial|]. split.
  - apply Lex_no_match; [done|]. by apply find_whitespace.
  - repeat split.
Qed.

Lemma Lex_whitespace_only_witness :
  exists l0 l',
    newLexer (bytes "  " ++ [LF]) = Some l0 /\
    Lex l0 lval0 = Some (l', lval0, minus1) /\
    code l' = bytes "  " ++ [LF] /\
    lastToken l' = [] /\
    lastPosition l' = 0 /\
    err l' = Some (bytes "parse failed after token , position 0: invalid token").
Proof.
  apply (Lex_whitespace_only (bytes "  " ++ [LF]) lval0).
  - discriminate.
  - reflexivity.
Defined.

(** An input of whitespace and comments with a comment in it: the
    pattern asks for a token, and the only one such an input offers is the
    two slashes of a comment, which are a regexp literal with nothing
    between its delimiters. So the first call of [Lex] returns a regexp
    literal with the text [//], although the skip group of the pattern is
    written to consume comments and does so in front of any other
    token. *)
Lemma Lex_comment_only (input : gostring) (lval : eskipSymType) :
  skipOnly input = true ->
  forallb isSpace input = false ->
  exists l',
    Lex (initial input) lval =
      Some (l', {| sym_token := [slash; slash] |}, const Token.regexpliteral) /\
    lastToken l' = [slash; slash] /\
    (length (code l') < length input)%nat /\
    err l' = None.
Proof.
  intros Hs Hsp.
  destruct (skipOnly_comment_start _ Hs Hsp) as (ws & tail & Hin & Hws).
  assert (Hm : regexp.FindStringSubmatch eskipRx (code (initial input)) <> []).
  { simpl. rewrite Hin. by apply find_comment. }
  destruct (Lex_token (initial input) lval (conj eq_refl eq_refl) Hm)
    as (k & trx & w0 & w & w3 & rest & c1 & c2 & Hk & Hcode & Hw & Hl & Hb & _ & HL).
  simpl in Hcode, Hb.
  assert (Hi : In trx eskipTokenRxs).
  { apply list_elem_of_In, list_elem_of_lookup. eauto. }
  pose proof (skip_many _ _ _ _ _ Hb Hs) as Hs1.
  destruct (token_in_skipOnly trx w (w3 ++ rest) Hi Hl Hw Hs1) as [Hg ->].
  assert (k = 7%nat) as ->.
  { eapply (NoDup_lookup _ _ _ _ groupIndex_NoDup);
      rewrite list_lookup_fmap; [rewrite Hk; simpl; by rewrite Hg|reflexivity]. }
  injection Hk as <-.
  eexists. split; [exact HL|]. simpl. repeat split.
  rewrite Hcode, !length_app. simpl. lia.
Qed.

(** C1 as stated fails for the input of one space: the first call
    returns [-1], but with a lexical error recorded. *)
Lemma whitespace_input_records_error :
  skipOnly (bytes " ") = true /\
  ~ (exists l0 l' lval',
       newLexer (bytes " ") = Some l0 /\
       Lex l0 lval0 = Some (l', lval', minus1) /\ err l' = None).
Proof.
  split; [reflexivity|].
  intros (l0 & l' & lval' & H0 & HL & He).
  injection H0 as <-. vm_compute in HL. injection HL as <- _.
  discriminate He.
Qed.

(** ** The text of a token *)

Section TokenText.
Import regexp Lang.

(** A call of [Lex] that returns a token leaves in the caller's value a
    text of the pattern of a table entry with that token. *)
Lemma Lex_returns_token l lval l' lval' t :
  well_formed l ->
  Lex l lval = Some (l', lval', const t) ->
  exists trx, In trx eskipTokenRxs /\ token trx = t /\
              lang (tokenGroup trx) (sym_token lval') /\
              lastToken l' = sym_token lval'.
Proof.
  intros Hwf HL.
  destruct (decide (code l = [])) as [Hc|Hc].
  { rewrite Lex_done in HL by done. discriminate. }
  destruct (decide (FindStringSubmatch eskipRx (code l) = [])) as [Hm|Hm].
  { rewrite Lex_no_match in HL; [discriminate|done|]. by destruct Hwf as [_ ->]. }
  destruct (Lex_token l lval Hwf Hm)
    as (k & trx & w0 & w & w3 & rest & c1 & c2 & Hk & _ & _ & Hl & _ & _ & HL').
  rewrite HL' in HL. injection HL as <- <- <-.
  exists trx. repeat split; auto.
  apply list_elem_of_In, list_elem_of_lookup. eauto.
Qed.

Lemma lang_delimited q1 r q2 s :
  lang (OpConcat (OpCharClass (Literal q1)) (OpConcat r (OpCharClass (Literal q2)))) s ->
  exists body, s = q1 :: body ++ [q2] /\ lang r body.
Proof.
  intros H.
  inversion H as [| | | | | | | | | |? ? w1 r1 Ha Hb| |]; subst. clear H.
  inversion Hb as [| | | | | | | | | |? ? body w2 Hc Hd| |]; subst. clear Hb.
  apply lang_literal in Ha, Hd. subst. by exists body.
Qed.

Lemma number_entry trx :
  In trx eskipTokenRxs -> token trx = Token.number -> tokenGroup trx = numberPattern.
Proof.
  intros Hin Ht. unfold eskipTokenRxs in Hin. simpl in Hin.
  repeat (destruct Hin as [<-|Hin]; [try discriminate Ht; reflexivity|]).
  destruct Hin.
Qed.

Lemma string_entry trx :
  In trx eskipTokenRxs -> token trx = Token.stringliteral ->
  exists q r, (q = dquote \/ q = backtick) /\
    tokenGroup trx = OpConcat (OpCharClass (Literal q)) (OpConcat r (OpCharClass (Literal q))).
Proof.
  intros Hin Ht. unfold eskipTokenRxs in Hin. simpl in Hin.
  repeat (destruct Hin as [<-|Hin];
          [try discriminate Ht;
           first [ exists dquote; eexists; split; [by left|reflexivity]
                 | exists backtick; eexists; split; [by right|reflexivity] ]|]).
  destruct Hin.
Qed.

Lemma regexp_entry trx :
  In trx eskipTokenRxs -> token trx = Token.regexpliteral ->
  exists r,
    tokenGroup trx =
      OpConcat (OpCharClass (Literal slash)) (OpConcat r (OpCharClass (Literal slash))).
Proof.
  intros Hin Ht. unfold eskipTokenRxs in Hin. simpl in Hin.
  repeat (destruct Hin as [<-|Hin];
          [try discriminate Ht; eexists; reflexivity|]).
  destruct Hin.
Qed.
End TokenText.

(** ** Progress of a scan session (C2) *)


Lemma len_app (a b : gostring) : len (a ++ b) = len a + len b.
Proof. unfold len. rewrite length_app. lia. Qed.

Lemma len_nonneg (a : gostring) : 0 <= len a.
Proof. unfold len. lia. Qed.

Lemma find_empty_input : regexp.FindStringSubmatch eskipRx [] = [].
Proof. reflexivity. Qed.

(** One call from a state that satisfies the invariant. *)
Lemma Lex_step input l lval :
  len input < 2 ^ 63 ->
  well_formed l ->
  consumed_inv input l ->
  exists l' lval' t,
    Lex l lval = Some (l', lval', t) /\
    consumed_inv input l' /\
    lastPosition l <= lastPosition l' /\
    code l' `suffix_of` code l /\
    (regexp.FindStringSubmatch (rx l) (code l) <> [] ->
     (length (code l') < length (code l))%nat).
Proof.
  intros Hin Hwf (consumed & Hi & H0 & Hp).
  pose proof (len_nonneg (lastRaw l)) as Hr.
  pose proof (len_nonneg (code l)) as Hcl.
  assert (Hb : lastPosition l + len (lastRaw l) < 2 ^ 63).
  { rewrite Hp. rewrite Hi, len_app in Hin. lia. }
  destruct (decide (code l = [])) as [Hc|Hc].
  { exists l, lval, minus1. split; [by apply Lex_done|].
    split; [by exists consumed|]. split; [lia|]. split; [done|].
    destruct Hwf as [_ ->]. rewrite Hc. intros H. by destruct H. }
  destruct (decide (regexp.FindStringSubmatch (rx l) (code l) = [])) as [Hm|Hm].
  - eexists _, lval, minus1. split; [by apply Lex_no_match|]. simpl.
    rewrite wrap64_small by lia.
    split; [|split; [lia|split; [done|done]]].
    exists consumed. simpl. rewrite len_nil. split; [done|]. lia.
  - destruct Hwf as [Ht Hrx]. rewrite Hrx in Hm.
    destruct (Lex_match l lval (conj Ht Hrx) Hc Hm) as (w & rest & t & s & Hcode & Hw & _ & HL).
    eexists _, _, t. split; [exact HL|]. simpl.
    rewrite wrap64_small by lia.
    split; [|split; [lia|split]].
    + exists (consumed ++ w). simpl. rewrite Hi, Hcode, app_assoc, len_app.
      split; [done|]. lia.
    + rewrite Hcode. by exists w.
    + intros _. rewrite Hcode, length_app. destruct w; [done|simpl; lia].
Qed.

Lemma session_consumed_inv input l :
  len input < 2 ^ 63 -> session input l -> consumed_inv input l.
Proof.
  intros Hin. induction 1 as [l H|l lval l' lval' t Hs IH H].
  - rewrite newLexer_initial in H. injection H as <-.
    exists []. simpl. by rewrite len_nil.
  - destruct (Lex_step input l lval Hin (session_well_formed _ _ Hs) IH)
      as (l2 & lval2 & t2 & HL & Hinv & _).
    rewrite H in HL. by injection HL as <- _ _.
Qed.

(** C2. In every state of a scan session, whatever the calls that led
    there: the next call of [Lex] returns; if it finds a match, the
    remaining input gets strictly shorter; the offset does not decrease;
    and before and after the call the offset plus the length of the last
    match is the length of the part of the input consumed so far, a
    prefix of the input, so that it never exceeds the length of the
    input. *)
Theorem session_progress (input : gostring) (l : eskipLex) (lval : eskipSymType) :
  len input < 2 ^ 63 ->
  session input l ->
  exists l' lval' t,
    Lex l lval = Some (l', lval', t) /\
    (regexp.FindStringSubmatch (rx l) (code l) <> [] ->
     (length (code l') < length (code l))%nat) /\
    (length (code l') <= length (code l))%nat /\
    0 <= lastPosition l <= lastPosition l' /\
    lastPosition l' + len (lastRaw l') + len (code l') = len input /\
    lastPosition l + len (lastRaw l) + len (code l) = len input.
Proof.
  intros Hin Hs.
  pose proof (session_consumed_inv _ _ Hin Hs) as Hinv.
  destruct (Lex_step input l lval Hin (session_well_formed _ _ Hs) Hinv)
    as (l' & lval' & t & HL & (c' & Hi' & H0' & Hp') & Hle & Hsuf & Hdec).
  destruct Hinv as (c & Hi & H0 & Hp).
  exists l', lval', t. split; [done|]. split; [done|].
  split; [by apply suffix_length|]. split; [lia|].
  split.
  - rewrite Hp'. rewrite Hi'. by rewrite len_app.
  - rewrite Hp. rewrite Hi. by rewrite len_app.
Qed.

Lemma session_progress_witness :
  exists l' lval' t,
    Lex (initial (bytes "a && b")) {| sym_token := [] |} = Some (l', lval', t) /\
    (regexp.FindStringSubmatch (rx (initial (bytes "a && b"))) (bytes "a && b") <> [] ->
     (length (code l') < 6)%nat) /\
    (length (code l') <= 6)%nat /\
    0 <= 0 <= lastPosition l' /\
    lastPosition l' + len (lastRaw l') + len (code l') = 6 /\
    0 + 0 + 6 = 6.
Proof.
  apply (session_progress (bytes "a && b") (initial (bytes "a && b")) {| sym_token := [] |}).
  - reflexivity.
  - apply session_new. reflexivity.
Defined.

(** ** Literal values (C5, C6, C7) *)

(** C6. Whenever [Lex] returns a string-literal token, its text is a body
    between two double quotes or between two backticks, and the string
    converter returns, without a panic, the body unescaped for the
    backslash and the double quote in the first case, and the body as it
    is, backslashes included, in the second. The same holds of any body
    between such delimiters. The input made of a double quote, [hello \],
    a double quote, [world\] and two double quotes is one string-literal
    token whose value is [hello], a space, and [world] between double
    quotes. *)
Theorem convertString_correct :
  (forall l lval l' lval',
     well_formed l ->
     Lex l lval = Some (l', lval', const Token.stringliteral) ->
     exists body,
       (sym_token lval' = [dquote] ++ body ++ [dquote] /\
        convertString (sym_token lval') = Some (unescape body [backslash; dquote])) \/
       (sym_token lval' = [backtick] ++ body ++ [backtick] /\
        convertString (sym_token lval') = Some body)) /\
  (forall body,
     convertString ([dquote] ++ body ++ [dquote]) = Some (unescape body [backslash; dquote])) /\
  (forall body,
     convertString ([backtick] ++ body ++ [backtick]) = Some body) /\
  (let input := [dquote] ++ bytes "hello \" ++ [dquote] ++ bytes "world\" ++ [dquote; dquote] in
   tokenize input = Some ([(Token.stringliteral, input)], None) /\
   convertString input = Some (bytes "hello " ++ [dquote] ++ bytes "world" ++ [dquote])).
Proof.
  assert (Hdq : forall body,
     convertString ([dquote] ++ body ++ [dquote]) = Some (unescape body [backslash; dquote])).
  { intros body. unfold convertString. simpl app.
    rewrite slice_first, slice_whole_but_ends. simpl.
    destruct (decide ([dquote] = [backtick])); [discriminate|reflexivity]. }
  assert (Hbt : forall body, convertString ([backtick] ++ body ++ [backtick]) = Some body).
  { intros body. unfold convertString. simpl app.
    rewrite slice_first, slice_whole_but_ends. simpl.
    destruct (decide ([backtick] = [backtick])); [reflexivity|done]. }
  split; [|split; [done|split; [done|split; reflexivity]]].
  intros l lval l' lval' Hwf HL.
  destruct (Lex_returns_token _ _ _ _ _ Hwf HL) as (trx & Hin & Ht & Hl & _).
  destruct (string_entry trx Hin Ht) as (q & r & Hq & Hr).
  rewrite Hr in Hl. apply lang_delimited in Hl as (body & Hs & _).
  exists body. destruct Hq as [-> | ->]; [left|right]; rewrite Hs;
    (split; [reflexivity|]); [apply Hdq|apply Hbt].
Qed.

Lemma convertString_correct_witness :
  exists body,
    (bytes "`a\b`" = [dquote] ++ body ++ [dquote] /\
     convertString (bytes "`a\b`") = Some (unescape body [backslash; dquote])) \/
    (bytes "`a\b`" = [backtick] ++ body ++ [backtick] /\
     convertString (bytes "`a\b`") = Some body).
Proof.
  apply (proj1 convertString_correct (initial (bytes "`a\b` x")) lval0
               (set_lastToken (set_code (set_lastRaw (initial (bytes "`a\b` x")) (bytes "`a\b` "))
                                        (bytes "x")) (bytes "`a\b`"))
               {| sym_token := bytes "`a\b`" |}).
  - split; reflexivity.
  - vm_compute. reflexivity.
Defined.

(** C7. Whenever [Lex] returns a regexp-literal token, its text is a body
    between two slashes, and the regexp converter returns, without a
    panic, the body unescaped for the slash; the same holds of any body
    between slashes. The input [/a\/b/] is one regexp-literal token whose
    value is [a/b]. *)
Theorem convertRegexp_correct :
  (forall l lval l' lval',
     well_formed l ->
     Lex l lval = Some (l', lval', const Token.regexpliteral) ->
     exists body,
       sym_token lval' = [slash] ++ body ++ [slash] /\
       convertRegexp (sym_token lval') = Some (unescape body [slash])) /\
  (forall body,
     convertRegexp ([slash] ++ body ++ [slash]) = Some (unescape body [slash])) /\
  tokenize (bytes "/a\/b/") = Some ([(Token.regexpliteral, bytes "/a\/b/")], None) /\
  convertRegexp (bytes "/a\/b/") = Some (bytes "a/b").
Proof.
  assert (Hre : forall body,
     convertRegexp ([slash] ++ body ++ [slash]) = Some (unescape body [slash])).
  { intros body. unfold convertRegexp. simpl app.
    rewrite slice_whole_but_ends. reflexivity. }
  split; [|split; [done|split; reflexivity]].
  intros l lval l' lval' Hwf HL.
  destruct (Lex_returns_token _ _ _ _ _ Hwf HL) as (trx & Hin & Ht & Hl & _).
  destruct (regexp_entry trx Hin Ht) as (r & Hr).
  rewrite Hr in Hl. apply lang_delimited in Hl as (body & Hs & _).
  exists body. rewrite Hs. split; [reflexivity|apply Hre].
Qed.

Lemma convertRegexp_correct_witness :
  exists body,
    bytes "/a\/b/" = [slash] ++ body ++ [slash] /\
    convertRegexp (bytes "/a\/b/") = Some (unescape body [slash]).
Proof.
  apply (proj1 convertRegexp_correct (initial (bytes "/a\/b/")) lval0
               (set_lastToken (set_code (set_lastRaw (initial (bytes "/a\/b/")) (bytes "/a\/b/"))
                                        []) (bytes "/a\/b/"))
               {| sym_token := bytes "/a\/b/" |}).
  - split; reflexivity.
  - vm_compute. reflexivity.
Defined.

(** C5, as amended. The inputs [12.5] and [.5] are each one number token
    with the whole input as text, of values 12.5 and 0.5, and no error.
    The input [5.] is one number token with the text [5], of value 5.0,
    after which the point is left and the scan ends with the error "parse
    failed after token 5, position 1: invalid token": the number pattern
    ends with a digit. Whenever [Lex] returns a number token, its text is
    a word of the number pattern, [ParseFloat] reports no syntax error
    for it, and the number converter returns the value of [ParseFloat],
    an error of range being dropped. *)
Theorem number_tokens (other : gostring -> strconv.float64 * option strconv.NumError) :
  (tokenize (bytes "12.5") = Some ([(Token.number, bytes "12.5")], None) /\
   convertNumber other (bytes "12.5") = S754_finite false 7036874417766400 (-49) /\
   strconv.to_Q (convertNumber other (bytes "12.5")) = Some (25 # 2)) /\
  (tokenize (bytes ".5") = Some ([(Token.number, bytes ".5")], None) /\
   convertNumber other (bytes ".5") = S754_finite false 4503599627370496 (-53) /\
   strconv.to_Q (convertNumber other (bytes ".5")) = Some (1 # 2)) /\
  (tokenize (bytes "5.") =
     Some ([(Token.number, bytes "5")],
           Some (bytes "parse failed after token 5, position 1: invalid token")) /\
   convertNumber other (bytes "5") = S754_finite false 5629499534213120 (-50) /\
   strconv.to_Q (convertNumber other (bytes "5")) = Some (5 # 1)) /\
  (forall l lval l' lval',
     well_formed l ->
     Lex l lval = Some (l', lval', const Token.number) ->
     Lang.lang numberPattern (sym_token lval') /\
     snd (strconv.ParseFloat other (sym_token lval')) <> Some strconv.ErrSyntax /\
     convertNumber other (sym_token lval') = fst (strconv.ParseFloat other (sym_token lval')) /\
     forall other', convertNumber other' (sym_token lval') = convertNumber other (sym_token lval')).
Proof.
  split; [repeat split|]. split; [repeat split|]. split; [repeat split|].
  intros l lval l' lval' Hwf HL.
  destruct (Lex_returns_token _ _ _ _ _ Hwf HL) as (trx & Hin & Ht & Hl & _).
  rewrite (number_entry trx Hin Ht) in Hl.
  destruct (ParseFloat_number other _ Hl) as [He Ho].
  split; [done|]. split; [done|]. unfold convertNumber. split.
  - by destruct (strconv.ParseFloat other (sym_token lval')).
  - intros other'. by rewrite (Ho other').
Qed.

Lemma number_tokens_witness :
  Lang.lang numberPattern (bytes "12.5") /\
  snd (strconv.ParseFloat (fun _ => (S754_nan, Some strconv.ErrSyntax)) (bytes "12.5"))
    <> Some strconv.ErrSyntax /\
  convertNumber (fun _ => (S754_nan, Some strconv.ErrSyntax)) (bytes "12.5") =
    fst (strconv.ParseFloat (fun _ => (S754_nan, Some strconv.ErrSyntax)) (bytes "12.5")) /\
  forall other',
    convertNumber other' (bytes "12.5") =
    convertNumber (fun _ => (S754_nan, Some strconv.ErrSyntax)) (bytes "12.5").
Proof.
  apply (proj2 (proj2 (proj2 (number_tokens (fun _ => (S754_nan, Some strconv.ErrSyntax)))))
               (initial (bytes "12.5")) lval0
               (set_lastToken (set_code (set_lastRaw (initial (bytes "12.5")) (bytes "12.5"))
                                        []) (bytes "12.5"))
               {| sym_token := bytes "12.5" |}).
  - split; reflexivity.
  - vm_compute. reflexivity.
Defined.

(** C5 as stated fails for the input [5.]: it is not one number token
    followed by the end of the input without an error. *)
Lemma five_point_is_not_one_number :
  ~ (exists s, tokenize (bytes "5.") = Some ([(Token.number, s)], None)).
Proof. intros [s H]. vm_compute in H. discriminate H. Qed.


(* ===================================================================== *)
(** * Further properties of the lexer *)
(* ===================================================================== *)

Section Groups.
Import regexp Lang.

(** The groups of a match: the whole match is skipped text, the text of
    one token and skipped text; the group of that token's entry holds the
    text, the groups of all other entries are empty. *)
Lemma find_groups input :
  FindStringSubmatch eskipRx input <> [] ->
  exists k trx w0 w w3 rest,
    eskipTokenRxs !! k = Some trx /\
    input = w0 ++ w ++ w3 ++ rest /\ w <> [] /\
    lang (OpStar skipBefore) w0 /\ lang (tokenGroup trx) w /\ lang (OpStar skipAfter) w3 /\
    length (FindStringSubmatch eskipRx input) = 20%nat /\
    index (FindStringSubmatch eskipRx input) 0 = Some (w0 ++ w ++ w3) /\
    index (FindStringSubmatch eskipRx input) (matchIndex trx) = Some w /\
    forall k' trx', k' <> k -> eskipTokenRxs !! k' = Some trx' ->
                    index (FindStringSubmatch eskipRx input) (matchIndex trx') = Some [].
Proof.
  intros Hm.
  destruct (eskip_find _ Hm) as (rest & caps & Hmat & Hfind).
  destruct (eskip_token _ _ _ Hmat)
    as (k & trx & w0 & w & w3 & c1 & c2 & c3 & Hk & Hcode & Hw & Hlang & Hb & Ht & Ha & Hi & Ho).
  pose proof (matches_caps_length _ _ _ _ _ _ Hmat) as Hl.
  rewrite length_replicate in Hl.
  assert (Hidx_of : forall trx', In trx' eskipTokenRxs ->
            index (FindStringSubmatch eskipRx input) (matchIndex trx')
            = submatch input <$> caps !! groupIndex trx').
  { intros trx' Hin'. destruct (table_entry trx' Hin') as (H0' & Hidx' & _).
    unfold index. destruct (matchIndex trx' <? 0) eqn:E; [apply Z.ltb_lt in E; lia|].
    rewrite Hfind, list_lookup_fmap. fold (groupIndex trx').
    rewrite list_lookup_insert_ne by lia. done. }
  assert (Hin : In trx eskipTokenRxs).
  { apply list_elem_of_In, list_elem_of_lookup. eauto. }
  exists k, trx, w0, w, w3, rest.
  split; [done|]. split; [done|]. split; [done|].
  split. { apply matches_lang in Hb as (w0' & Hw0 & Hl0). rewrite Hcode in Hw0.
           apply app_inv_tail in Hw0. by subst. }
  split; [done|].
  split. { apply matches_lang in Ha as (w3' & Hw3 & Hl3).
           apply app_inv_tail in Hw3. by subst. }
  split. { by rewrite Hfind, length_map, length_insert. }
  split. { unfold index. simpl. rewrite Hfind, list_lookup_fmap, list_lookup_insert_eq by lia.
           simpl. rewrite drop_0, Nat.sub_0_r. f_equal.
           assert (Hc' : input = (w0 ++ w ++ w3) ++ rest).
           { rewrite Hcode. by rewrite <- !app_assoc. }
           rewrite Hc'. rewrite (length_app (w0 ++ w ++ w3)), Nat.add_sub.
           by rewrite take_app_length. }
  split.
  - rewrite Hidx_of, Hi by done. simpl. f_equal.
    rewrite Hcode, drop_app_length.
    replace (length w0 + length w - length w0)%nat with (length w) by lia.
    by rewrite take_app_length.
  - intros k' trx' Hk' Hin'. rewrite Hidx_of.
    + by rewrite (Ho k' trx' Hk' Hin').
    + apply list_elem_of_In, list_elem_of_lookup. eauto.
Qed.
End Groups.

(** The three ways a call of [Lex] can go. *)
Lemma Lex_on_match l lval :
  well_formed l ->
  regexp.FindStringSubmatch eskipRx (code l) <> [] ->
  exists k trx w0 w w3 rest,
    eskipTokenRxs !! k = Some trx /\
    code l = w0 ++ w ++ w3 ++ rest /\ w <> [] /\
    Lang.lang (regexp.OpStar skipBefore) w0 /\ Lang.lang (tokenGroup trx) w /\
    Lang.lang (regexp.OpStar skipAfter) w3 /\
    Lex l lval =
      Some ({| tokenRxs := tokenRxs l; rx := rx l; code := rest; lastToken := w;
               lastRaw := w0 ++ w ++ w3;
               lastPosition := wrap64 (lastPosition l + len (lastRaw l));
               err := err l |},
            {| sym_token := w |}, const (token trx)).
Proof.
  intros [Ht Hr] Hm.
  destruct (find_groups _ Hm)
    as (k & trx & w0 & w & w3 & rest & Hk & Hcode & Hw & Hl0 & Hl & Hl3 & Hlen & Hm0 & Hi & Ho).
  exists k, trx, w0, w, w3, rest. repeat (split; [done|]).
  assert (Hc : code l <> []).
  { rewrite Hcode. destruct w0; [|done]. by destruct w. }
  unfold Lex. destruct (len (code l) =? 0) eqn:E; [by apply len_zero in E|].
  unfold matchToken. simpl. rewrite Hr.
  destruct (len_list _ =? 0) eqn:E2.
  { apply len_list_zero in E2. by rewrite E2 in Hlen. }
  rewrite Hm0. simpl.
  assert (Hc' : code l = (w0 ++ w ++ w3) ++ rest).
  { rewrite Hcode. by rewrite <- !app_assoc. }
  rewrite Hc' at 1 2. rewrite slice_suffix. simpl.
  rewrite E2. unfold getToken. simpl. rewrite Ht.
  rewrite (getToken_loop_first eskipTokenRxs _ k trx w Hk Hi Hw Ho). simpl.
  unfold set_lastToken. simpl. congruence.
Qed.

(** No state of a scan session makes [Lex] panic: neither the index
    expressions of [getToken] nor the slice expression of [matchToken]
    go out of range, and [newLexer] itself does not panic on its
    pattern. *)
Theorem Lex_never_panics (input : gostring) (l : eskipLex) (lval : eskipSymType) :
  session input l ->
  is_Some (newLexer input) /\ is_Some (Lex l lval).
Proof.
  intros Hs. split; [by rewrite newLexer_initial|].
  pose proof (session_well_formed _ _ Hs) as Hwf.
  destruct (decide (code l = [])) as [Hc|Hc].
  { by rewrite Lex_done. }
  destruct (decide (regexp.FindStringSubmatch eskipRx (code l) = [])) as [Hm|Hm].
  { rewrite Lex_no_match; [done|done|]. by destruct Hwf as [_ ->]. }
  destruct (Lex_on_match l lval Hwf Hm) as (k & trx & w0 & w & w3 & rest & H).
  destruct H as (_ & _ & _ & _ & _ & _ & ->). done.
Qed.

Lemma Lex_never_panics_witness :
  is_Some (newLexer (bytes "a -> b")) /\
  is_Some (Lex (set_lastToken (set_code (set_lastRaw (initial (bytes "a -> b")) (bytes "a "))
                                        (bytes "-> b")) (bytes "a")) lval0).
Proof.
  apply (Lex_never_panics (bytes "a -> b")).
  eapply (session_Lex _ (initial (bytes "a -> b")) lval0).
  - apply session_new. reflexivity.
  - vm_compute. reflexivity.
Defined.

(** Whenever the pattern matches the remaining input, [Lex] returns the
    token of an entry of the table, never [-1]. The text it leaves in the
    caller's value and in [lastToken] is not empty and is a word of that
    entry's expression; the raw match is this text between two stretches
    of skipped text and is cut off the front of the remaining input; the
    error field is not touched. *)
Theorem Lex_match_returns_token (input : gostring) (l : eskipLex) (lval : eskipSymType) :
  session input l ->
  regexp.FindStringSubmatch (rx l) (code l) <> [] ->
  exists trx w0 w w3 l',
    trx ∈ tokenRxs l /\
    Lex l lval = Some (l', {| sym_token := w |}, const (token trx)) /\
    w <> [] /\
    Lang.lang (tokenGroup trx) w /\
    Lang.lang (regexp.OpStar skipBefore) w0 /\
    Lang.lang (regexp.OpStar skipAfter) w3 /\
    lastToken l' = w /\
    lastRaw l' = w0 ++ w ++ w3 /\
    code l = lastRaw l' ++ code l' /\
    err l' = err l.
Proof.
  intros Hs Hm. pose proof (session_well_formed _ _ Hs) as Hwf.
  destruct Hwf as [Ht Hr]. rewrite Hr in Hm.
  destruct (Lex_on_match l lval (conj Ht Hr) Hm)
    as (k & trx & w0 & w & w3 & rest & Hk & Hcode & Hw & Hl0 & Hl & Hl3 & HL).
  exists trx, w0, w, w3. eexists. split.
  { rewrite Ht. apply list_elem_of_lookup. eauto. }
  split; [exact HL|]. simpl. repeat (split; [done|]).
  split; [|done]. rewrite Hcode. by rewrite <- !app_assoc.
Qed.

Lemma Lex_match_returns_token_witness :
  exists trx w0 w w3 l',
    trx ∈ tokenRxs (initial (bytes " -> b")) /\
    Lex (initial (bytes " -> b")) lval0 = Some (l', {| sym_token := w |}, const (token trx)) /\
    w <> [] /\
    Lang.lang (tokenGroup trx) w /\
    Lang.lang (regexp.OpStar skipBefore) w0 /\
    Lang.lang (regexp.OpStar skipAfter) w3 /\
    lastToken l' = w /\
    lastRaw l' = w0 ++ w ++ w3 /\
    code (initial (bytes " -> b")) = lastRaw l' ++ code l' /\
    err l' = err (initial (bytes " -> b")).
Proof.
  apply (Lex_match_returns_token (bytes " -> b") (initial (bytes " -> b")) lval0).
  - apply session_new. reflexivity.
  - vm_compute. discriminate.
Defined.

(** In a match exactly one entry of the table has a group that is not
    empty, so that the token [getToken] finds does not depend on the order
    in which it goes through the table. *)
Theorem getToken_order_irrelevant (input : gostring) (trxs : list tokenRx) :
  regexp.FindStringSubmatch eskipRx input <> [] ->
  trxs ≡ₚ eskipTokenRxs ->
  exists trx w,
    trx ∈ eskipTokenRxs /\ w <> [] /\
    index (regexp.FindStringSubmatch eskipRx input) (matchIndex trx) = Some w /\
    (forall trx', trx' ∈ eskipTokenRxs -> trx' <> trx ->
       index (regexp.FindStringSubmatch eskipRx input) (matchIndex trx') = Some []) /\
    getToken_loop eskipTokenRxs (regexp.FindStringSubmatch eskipRx input)
      = Some (const (token trx), w) /\
    getToken_loop trxs (regexp.FindStringSubmatch eskipRx input)
      = Some (const (token trx), w).
Proof.
  intros Hm Hp.
  destruct (find_groups _ Hm)
    as (k & trx & w0 & w & w3 & rest & Hk & _ & Hw & _ & _ & _ & _ & _ & Hi & Ho).
  assert (Hnd : NoDup eskipTokenRxs).
  { eapply NoDup_fmap_1. apply groupIndex_NoDup. }
  assert (Hothers : forall trx', trx' ∈ eskipTokenRxs -> trx' <> trx ->
            index (regexp.FindStringSubmatch eskipRx input) (matchIndex trx') = Some []).
  { intros trx' Hin Hne. apply list_elem_of_lookup in Hin as [k' Hk'].
    apply (Ho k' trx'); [|done]. intros ->. congruence. }
  exists trx, w. split; [apply list_elem_of_lookup; eauto|].
  split; [done|]. split; [done|]. split; [done|]. split.
  - by apply (getToken_loop_first _ _ k).
  - assert (Hin : trx ∈ trxs).
    { rewrite Hp. apply list_elem_of_lookup. eauto. }
    apply list_elem_of_lookup in Hin as [j Hj].
    apply (getToken_loop_first _ _ j); auto.
    intros j' trx' Hne Hj'. apply Hothers.
    + rewrite <- Hp. apply list_elem_of_lookup. eauto.
    + intros ->. apply Hne. rewrite <- Hp in Hnd.
      by apply (NoDup_lookup _ _ _ _ Hnd Hj' Hj).
Qed.

Lemma getToken_order_irrelevant_witness :
  exists trx w,
    trx ∈ eskipTokenRxs /\ w <> [] /\
    index (regexp.FindStringSubmatch eskipRx (bytes "x1 ")) (matchIndex trx) = Some w /\
    (forall trx', trx' ∈ eskipTokenRxs -> trx' <> trx ->
       index (regexp.FindStringSubmatch eskipRx (bytes "x1 ")) (matchIndex trx') = Some []) /\
    getToken_loop eskipTokenRxs (regexp.FindStringSubmatch eskipRx (bytes "x1 "))
      = Some (const (token trx), w) /\
    getToken_loop (reverse eskipTokenRxs) (regexp.FindStringSubmatch eskipRx (bytes "x1 "))
      = Some (const (token trx), w).
Proof.
  apply (getToken_order_irrelevant (bytes "x1 ") (reverse eskipTokenRxs)).
  - vm_compute. discriminate.
  - apply reverse_Permutation.
Defined.

(** A token shortens the remaining input, so the caller's loop ends. *)
Lemma scan_total fuel l lval :
  well_formed l ->
  (length (code l) < fuel)%nat ->
  exists toks e, scan fuel l lval = Some (toks, e) /\ (length toks <= length (code l))%nat.
Proof.
  revert l lval. induction fuel as [|fuel IH]; intros l lval Hwf Hf; [lia|].
  simpl.
  destruct (decide (code l = [])) as [Hc|Hc].
  { rewrite Lex_done by done. simpl. exists [], (err l). split; [done|simpl; lia]. }
  destruct (decide (regexp.FindStringSubmatch eskipRx (code l) = [])) as [Hm|Hm].
  { rewrite Lex_no_match; [|done|by destruct Hwf as [_ ->]]. simpl.
    eexists [], _. split; [done|simpl; lia]. }
  destruct (Lex_on_match l lval Hwf Hm)
    as (k & trx & w0 & w & w3 & rest & _ & Hcode & Hw & _ & _ & _ & HL).
  rewrite HL. simpl.
  assert (Hlen : (length rest < length (code l))%nat).
  { rewrite Hcode, !length_app. destruct w; [done|simpl; lia]. }
  set (l1 := {| tokenRxs := tokenRxs l; rx := rx l; code := rest; lastToken := w;
                lastRaw := w0 ++ w ++ w3;
                lastPosition := wrap64 (lastPosition l + len (lastRaw l));
                err := err l |}).
  destruct (IH l1 {| sym_token := w |}) as (toks & e & Hs & Hl).
  { by destruct Hwf. }
  { simpl. lia. }
  rewrite Hs. simpl. exists ((token trx, w) :: toks), e. split; [done|].
  simpl in *. lia.
Qed.

(** The caller's loop always ends, without a panic: for every input, [-1]
    is returned after at most as many tokens as the input has bytes. *)
Theorem tokenize_total (input : gostring) :
  exists toks e,
    tokenize input = Some (toks, e) /\ (length toks <= length input)%nat.
Proof.
  unfold tokenize. rewrite newLexer_initial. simpl.
  apply (scan_total (S (length input)) (initial input) lval0); [by split|simpl; lia].
Qed.

(** A session records an error only where the pattern does not match
    the remaining input, which is then not empty. *)
Lemma session_err_inv input l :
  session input l ->
  err l = None \/
  (code l <> [] /\ regexp.FindStringSubmatch eskipRx (code l) = [] /\ lastRaw l = []).
Proof.
  induction 1 as [l H|l lval l' lval' t Hs IH H].
  - rewrite newLexer_initial in H. injection H as <-. by left.
  - pose proof (session_well_formed _ _ Hs) as Hwf.
    destruct (decide (code l = [])) as [Hc|Hc].
    { rewrite Lex_done in H by done. injection H as <- _ _.
      destruct IH as [?|(? & _)]; [by left|done]. }
    destruct (decide (regexp.FindStringSubmatch eskipRx (code l) = [])) as [Hm|Hm].
    { rewrite Lex_no_match in H; [|done|by destruct Hwf as [_ ->]].
      injection H as <- _ _. by right. }
    destruct IH as [He|(_ & Hm' & _)]; [|done].
    destruct (Lex_on_match l lval Hwf Hm) as (k & trx & w0 & w & w3 & rest & H').
    destruct H' as (_ & _ & _ & _ & _ & _ & HL). rewrite HL in H.
    injection H as <- _ _. by left.
Qed.

(** What the return value [-1] means. In a scan session, when [Lex]
    returns [-1] and no error is recorded, the whole input has been
    consumed; an error is recorded only together with the return value
    [-1], with input remaining, none of it consumed by that call; and a
    call that returns a token records no error. *)
Theorem Lex_end_or_error (input : gostring) (l l' : eskipLex)
  (lval lval' : eskipSymType) (t : tokenInt) :
  session input l ->
  Lex l lval = Some (l', lval', t) ->
  (t = minus1 -> err l' = None -> code l' = []) /\
  (err l' <> None -> t = minus1 /\ code l' <> [] /\ code l' = code l) /\
  (t <> minus1 -> err l' = None).
Proof.
  intros Hs H.
  pose proof (session_well_formed _ _ Hs) as Hwf.
  pose proof (session_err_inv _ _ Hs) as Hinv.
  destruct (decide (code l = [])) as [Hc|Hc].
  { rewrite Lex_done in H by done. injection H as <- _ <-.
    destruct Hinv as [He|(? & _)]; [|done]. repeat split; auto; congruence. }
  destruct (decide (regexp.FindStringSubmatch eskipRx (code l) = [])) as [Hm|Hm].
  { rewrite Lex_no_match in H; [|done|by destruct Hwf as [_ ->]].
    injection H as <- _ <-. simpl. repeat split; auto; try discriminate; done. }
  destruct Hinv as [He|(_ & Hm' & _)]; [|done].
  destruct (Lex_on_match l lval Hwf Hm) as (k & trx & w0 & w & w3 & rest & H').
  destruct H' as (_ & _ & _ & _ & _ & _ & HL). rewrite HL in H.
  injection H as <- _ <-. simpl. repeat split; auto; try discriminate; congruence.
Qed.

Lemma Lex_end_or_error_witness :
  (minus1 = minus1 ->
   err (Error (set_lastPosition (set_lastRaw (initial (bytes "@")) []) 0) (bytes "invalid token"))
     = None ->
   code (Error (set_lastPosition (set_lastRaw (initial (bytes "@")) []) 0) (bytes "invalid token"))
     = []) /\
  (err (Error (set_lastPosition (set_lastRaw (initial (bytes "@")) []) 0) (bytes "invalid token"))
     <> None ->
   minus1 = minus1 /\
   code (Error (set_lastPosition (set_lastRaw (initial (bytes "@")) []) 0) (bytes "invalid token"))
     <> [] /\
   code (Error (set_lastPosition (set_lastRaw (initial (bytes "@")) []) 0) (bytes "invalid token"))
     = code (initial (bytes "@"))) /\
  (minus1 <> minus1 ->
   err (Error (set_lastPosition (set_lastRaw (initial (bytes "@")) []) 0) (bytes "invalid token"))
     = None).
Proof.
  apply (Lex_end_or_error (bytes "@") (initial (bytes "@")) _ lval0 lval0 minus1).
  - apply session_new. reflexivity.
  - vm_compute. reflexivity.
Defined.

(** The position in the error message is the offset, in the input of the
    session, of the remaining input that the pattern does not match:
    every byte before it has been consumed by earlier matches. *)
Theorem Error_position (input : gostring) (l : eskipLex) (lval : eskipSymType) :
  len input < 2 ^ 63 ->
  session input l ->
  code l <> [] ->
  regexp.FindStringSubmatch (rx l) (code l) = [] ->
  exists l' consumed,
    Lex l lval = Some (l', lval, minus1) /\
    input = consumed ++ code l' /\
    lastPosition l' = len consumed /\
    err l' = Some (bytes "parse failed after token " ++ lastToken l ++
                   bytes ", position " ++ Itoa (len input - len (code l)) ++
                   bytes ": invalid token").
Proof.
  intros Hin Hs Hc Hm.
  destruct (session_consumed_inv _ _ Hin Hs) as (consumed & Hi & H0 & Hp).
  assert (Hb : lastPosition l + len (lastRaw l) = len input - len (code l)).
  { rewrite Hp. rewrite Hi at 1. rewrite len_app. lia. }
  pose proof (len_nonneg (code l)). pose proof (len_nonneg (lastRaw l)).
  eexists _, consumed. split; [by apply Lex_no_match|].
  split; [exact Hi|].
  split. { simpl. rewrite wrap64_small by lia. lia. }
  rewrite Error_message. simpl lastToken. simpl lastPosition.
  rewrite wrap64_small by lia. by rewrite Hb.
Qed.

Lemma Error_position_witness :
  exists l' consumed,
    Lex (set_lastToken (set_code (set_lastRaw (initial (bytes "5 .")) (bytes "5 ")) (bytes "."))
                       (bytes "5")) lval0
      = Some (l', lval0, minus1) /\
    bytes "5 ." = consumed ++ code l' /\
    lastPosition l' = len consumed /\
    err l' = Some (bytes "parse failed after token " ++ bytes "5" ++
                   bytes ", position " ++ Itoa (len (bytes "5 .") - len (bytes ".")) ++
                   bytes ": invalid token").
Proof.
  apply (Error_position (bytes "5 .")).
  - reflexivity.
  - eapply (session_Lex _ (initial (bytes "5 .")) lval0).
    + apply session_new. reflexivity.
    + vm_compute. reflexivity.
  - discriminate.
  - vm_compute. reflexivity.
Defined.

(** ** Further properties of the converters *)

Lemma unescape_as_spec s chars : unescape s chars = unescape_spec s chars.
Proof. unfold unescape. by rewrite unescape_loop_spec. Qed.

(** A text without a backslash is returned as it is, whatever the
    allowed set. *)
Theorem unescape_without_backslash (s chars : gostring) :
  contains s backslash = false -> unescape s chars = s.
Proof.
  rewrite unescape_as_spec. unfold contains.
  induction s as [|c s IH]; [done|].
  cbn [existsb unescape_spec]. intros H. apply orb_false_iff in H as [Hc Hs].
  rewrite Ascii.eqb_sym in Hc. rewrite Hc. by rewrite IH.
Qed.

Lemma unescape_without_backslash_witness :
  unescape (bytes "a/b c") [slash] = bytes "a/b c".
Proof. apply (unescape_without_backslash (bytes "a/b c") [slash]). reflexivity. Defined.

(** Unescaping only ever removes backslashes: the other bytes of the
    text are all kept, in their order, and the result is never longer
    than the text. *)
Theorem unescape_only_drops_backslashes (s chars : gostring) :
  filter (fun c => c <> backslash) (unescape s chars) = filter (fun c => c <> backslash) s /\
  (length (unescape s chars) <= length s)%nat.
Proof.
  rewrite unescape_as_spec.
  induction s as [s IH] using (induction_ltof1 _ (@length ascii)). unfold ltof in IH.
  destruct s as [|c rest]; simpl; [done|].
  destruct (Ascii.eqb c backslash) eqn:Hc.
  - apply Ascii.eqb_eq in Hc. subst c.
    destruct rest as [|d rest']; [split; [done|simpl; lia]|].
    destruct (IH rest') as [IH1 IH2]; [simpl; lia|].
    rewrite (filter_cons_False _ backslash) by (intros H; by apply H).
    destruct (contains chars d).
    + rewrite !filter_cons. destruct (decide (d <> backslash)); rewrite IH1; simpl; split; auto; lia.
    + rewrite (filter_cons_False _ backslash) by (intros H; by apply H).
      rewrite !filter_cons. destruct (decide (d <> backslash)); rewrite IH1; simpl; split; auto; lia.
  - destruct (IH rest) as [IH1 IH2]; [simpl; lia|].
    rewrite !filter_cons. destruct (decide (c <> backslash)); rewrite IH1; simpl; split; auto; lia.
Qed.

(** The string converter and the regexp converter panic exactly on the
    texts of fewer than two bytes, where the slice expression that drops
    the delimiters is out of range (or, for the empty string, already
    the test of the first byte). *)
Theorem converters_panic_on_short_text (s : gostring) :
  (convertString s = None <-> (length s < 2)%nat) /\
  (convertRegexp s = None <-> (length s < 2)%nat).
Proof.
  assert (Hs : forall c d (r : gostring), is_Some (slice (c :: d :: r) 1 (len (c :: d :: r) - 1))).
  { intros c d r. unfold slice, len. simpl length.
    replace (1 <=? Z.of_nat (S (S (length r))) - 1) with true
      by (symmetry; apply Z.leb_le; lia).
    replace (Z.of_nat (S (S (length r))) - 1 <=? Z.of_nat (S (S (length r)))) with true
      by (symmetry; apply Z.leb_le; lia).
    by eexists. }
  destruct s as [|c [|d r]].
  - split; (split; [simpl; lia|reflexivity]).
  - split; (split; [simpl; lia|intros _]); [|reflexivity].
    unfold convertString. rewrite slice_first. simpl.
    by destruct (decide ([c] = [backtick])).
  - destruct (Hs c d r) as [body Hb].
    split; (split; [|simpl; lia]).
    + unfold convertString. rewrite slice_first, Hb. simpl.
      by destruct (decide ([c] = [backtick])).
    + unfold convertRegexp. by rewrite Hb.
Qed.

(** ** The table of [newLexer] and the merged pattern *)

(** The group counts written in the table are those of the expressions:
    every expression of the table compiles on its own, with as many
    capturing groups as its entry says. The index [newLexer] gives the
    entry is that of a group of the merged pattern, and what this group
    encloses is the entry's own pattern, its groups renumbered from that
    index on. The merged pattern has 3 groups for the skipped text, one
    for each entry, and the groups inside the entries. *)
Theorem table_groups_consistent (code : gostring) (l : eskipLex) (trx : tokenRx) :
  newLexer code = Some l ->
  trx ∈ tokenRxs l ->
  (exists c,
     regexp.Compile (expression trx) = Some c /\
     Z.of_nat (regexp.numSubexp c) = captureGroups trx /\
     Lang.group_sub (Z.to_nat (matchIndex trx)) (regexp.expr (rx l)) =
       Some (shift_groups (Z.to_nat (matchIndex trx)) (regexp.expr c))) /\
  0 < matchIndex trx /\
  Z.of_nat (regexp.numSubexp (rx l)) =
    3 + len_list (tokenRxs l) + foldr Z.add 0 (captureGroups <$> tokenRxs l).
Proof.
  rewrite newLexer_initial. intros [= <-] Hin. simpl tokenRxs in *. simpl rx.
  split; [|split; [|reflexivity]].
  - apply list_elem_of_In in Hin. unfold eskipTokenRxs in Hin. simpl in Hin.
    repeat (destruct Hin as [<-|Hin];
            [eexists; split; [vm_compute; reflexivity|split; vm_compute; reflexivity]|]).
    destruct Hin.
  - apply list_elem_of_In in Hin. unfold eskipTokenRxs in Hin. simpl in Hin.
    repeat (destruct Hin as [<-|Hin]; [reflexivity|]). destruct Hin.
Qed.

Lemma table_groups_consistent_witness :
  (exists c,
     regexp.Compile (expression regexpliteralEntry) = Some c /\
     Z.of_nat (regexp.numSubexp c) = captureGroups regexpliteralEntry /\
     Lang.group_sub (Z.to_nat (matchIndex regexpliteralEntry)) (regexp.expr (rx (initial []))) =
       Some (shift_groups (Z.to_nat (matchIndex regexpliteralEntry)) (regexp.expr c))) /\
  0 < matchIndex regexpliteralEntry /\
  Z.of_nat (regexp.numSubexp (rx (initial []))) =
    3 + len_list (tokenRxs (initial [])) + foldr Z.add 0 (captureGroups <$> tokenRxs (initial [])).
Proof.
  apply (table_groups_consistent [] (initial []) regexpliteralEntry).
  - reflexivity.
  - apply list_elem_of_In. vm_compute. do 7 right. left. reflexivity.
Defined.

Lemma wrap64_add_inner a b : wrap64 (a + wrap64 b) = wrap64 (a + b).
Proof.
  unfold wrap64.
  rewrite (Z.mod_eq (b + 2 ^ 63) (2 ^ 64)) by lia.
  replace (a + (b + 2 ^ 63 - 2 ^ 64 * ((b + 2 ^ 63) / 2 ^ 64) - 2 ^ 63) + 2 ^ 63)
    with (a + b + 2 ^ 63 + (- ((b + 2 ^ 63) / 2 ^ 64)) * 2 ^ 64) by lia.
  by rewrite Z.mod_add by lia.
Qed.

Lemma assignIndexes_length i0 g0 trxs :
  length (fst (assignIndexes i0 g0 trxs)) = length trxs /\
  length (snd (assignIndexes i0 g0 trxs)) = length trxs.
Proof.
  revert i0 g0. induction trxs as [|t0 rest IH]; intros i0 g0; [done|].
  simpl assignIndexes.
  specialize (IH (i0 + 1) (wrap64 (g0 + captureGroups t0))).
  destruct (assignIndexes (i0 + 1) (wrap64 (g0 + captureGroups t0)) rest) as [ts ss].
  simpl in *. destruct IH as [-> ->]. done.
Qed.

(** The loop of [newLexer], for any table, any start index and any
    start count. The entry at position [k] keeps its token, expression
    and group count; its index is the start index plus [k] plus the start
    count plus the group counts of the entries before it (in 64 bits);
    and the piece it adds to the merged pattern is its expression in
    parentheses. *)
Theorem assignIndexes_entry (i0 g0 : Z) (trxs : list tokenRx) (k : nat) (trx : tokenRx) :
  trxs !! k = Some trx ->
  fst (assignIndexes i0 g0 trxs) !! k =
    Some {| token := token trx; expression := expression trx;
            captureGroups := captureGroups trx;
            matchIndex := wrap64 (i0 + Z.of_nat k + g0 + groupsBefore k trxs) |} /\
  snd (assignIndexes i0 g0 trxs) !! k = Some (bytes "(" ++ expression trx ++ bytes ")") /\
  length (fst (assignIndexes i0 g0 trxs)) = length trxs /\
  length (snd (assignIndexes i0 g0 trxs)) = length trxs.
Proof.
  intros Hk.
  cut (fst (assignIndexes i0 g0 trxs) !! k =
         Some {| token := token trx; expression := expression trx;
                 captureGroups := captureGroups trx;
                 matchIndex := wrap64 (i0 + Z.of_nat k + g0 + groupsBefore k trxs) |} /\
       snd (assignIndexes i0 g0 trxs) !! k = Some (bytes "(" ++ expression trx ++ bytes ")")).
  { intros [H1 H2]. destruct (assignIndexes_length i0 g0 trxs) as [H3 H4]. done. }
  revert i0 g0 k Hk. induction trxs as [|t0 rest IH]; intros i0 g0 k Hk; [done|].
  simpl assignIndexes.
  specialize (IH (i0 + 1) (wrap64 (g0 + captureGroups t0))).
  destruct (assignIndexes (i0 + 1) (wrap64 (g0 + captureGroups t0)) rest) as [ts ss].
  set (trx0 := {| token := token t0; expression := expression t0;
                  captureGroups := captureGroups t0; matchIndex := wrap64 (i0 + g0) |}).
  destruct k as [|k].
  - injection Hk as ->. simpl. unfold groupsBefore. simpl.
    by rewrite Z.add_0_r, Z.add_0_r.
  - destruct (IH k Hk) as [IH1 IH2]. simpl in IH1, IH2.
    replace (Z.of_nat (S k)) with (Z.of_nat k + 1) by lia.
    cbn [fst snd].
    change ((trx0 :: ts) !! S k) with (ts !! k).
    match goal with |- context [(?x :: ss) !! S k] => change ((x :: ss) !! S k) with (ss !! k) end.
    rewrite IH1, IH2. split; [|done]. do 2 f_equal.
    unfold groupsBefore.
    change (take (S k) (t0 :: rest)) with (t0 :: take k rest).
    change (foldr Z.add 0 (captureGroups <$> t0 :: take k rest))
      with (captureGroups t0 + foldr Z.add 0 (captureGroups <$> take k rest)).
    replace (i0 + 1 + Z.of_nat k + wrap64 (g0 + captureGroups t0) +
             foldr Z.add 0 (captureGroups <$> take k rest))
      with ((i0 + 1 + Z.of_nat k + foldr Z.add 0 (captureGroups <$> take k rest)) +
            wrap64 (g0 + captureGroups t0)) by lia.
    rewrite wrap64_add_inner. f_equal. lia.
Qed.

Lemma assignIndexes_entry_witness :
  fst (assignIndexes 0 3 tokenTable) !! 8%nat =
    Some {| token := Token.semicolon; expression := bytes ";"; captureGroups := 0;
            matchIndex := wrap64 (0 + Z.of_nat 8 + 3 + groupsBefore 8 tokenTable) |} /\
  snd (assignIndexes 0 3 tokenTable) !! 8%nat = Some (bytes "(" ++ bytes ";" ++ bytes ")") /\
  length (fst (assignIndexes 0 3 tokenTable)) = length tokenTable /\
  length (snd (assignIndexes 0 3 tokenTable)) = length tokenTable.
Proof.
  apply (assignIndexes_entry 0 3 tokenTable 8 (mkTokenRx Token.semicolon (bytes ";") 0)).
  reflexivity.
Defined.

(** ** The texts of the tokens *)

Section TokenShapes.
Import regexp Lang.

Lemma literal_word_sound r w s : literal_word r = Some w -> lang r s -> s = w.
Proof.
  revert w s.
  induction r as [|cl| | |i r IH|r IH|r IH|r IH|r1 IH1 r2 IH2|r1 IH1 r2 IH2];
    intros w s H Hl; try discriminate H.
  - destruct cl as [c| |neg rs]; try discriminate H.
    + injection H as <-. by apply lang_literal.
    + destruct neg; [discriminate H|].
      destruct rs as [|[c d] [|? ?]]; try discriminate H.
      cbn [literal_word] in H.
      destruct (Ascii.eqb c d) eqn:E; [|discriminate H].
      apply Ascii.eqb_eq in E. subst d. injection H as <-.
      inversion Hl as [|? ch Hc| | | | | | | | | | |]; subst.
      f_equal. by eapply class_single.
  - cbn [literal_word] in H.
    destruct (literal_word r1) as [w1|] eqn:E1; [|discriminate H].
    destruct (literal_word r2) as [w2|] eqn:E2; [|discriminate H].
    injection H as <-.
    inversion Hl as [| | | | | | | | | |? ? u1 u2 Ha Hb| |]; subst.
    f_equal; eauto.
Qed.

Lemma literal_word_complete r w : literal_word r = Some w -> lang r w.
Proof.
  revert w.
  induction r as [|cl| | |i r IH|r IH|r IH|r IH|r1 IH1 r2 IH2|r1 IH1 r2 IH2];
    intros w H; try discriminate H.
  - destruct cl as [c| |neg rs]; try discriminate H.
    + injection H as <-. constructor. apply Ascii.eqb_refl.
    + destruct neg; [discriminate H|].
      destruct rs as [|[c d] [|? ?]]; try discriminate H.
      cbn [literal_word] in H.
      destruct (Ascii.eqb c d) eqn:E; [|discriminate H].
      apply Ascii.eqb_eq in E. subst d. injection H as <-.
      constructor. unfold class_matches, in_range. simpl.
      by rewrite N.leb_refl.
  - cbn [literal_word] in H.
    destruct (literal_word r1) as [w1|] eqn:E1; [|discriminate H].
    destruct (literal_word r2) as [w2|] eqn:E2; [|discriminate H].
    injection H as <-. constructor; eauto.
Qed.

Lemma fixed_entry trx w :
  In trx eskipTokenRxs -> lexeme (token trx) = Some w ->
  literal_word (tokenGroup trx) = Some w.
Proof.
  intros Hin. unfold eskipTokenRxs in Hin. simpl in Hin.
  repeat (destruct Hin as [<-|Hin];
          [intros H; try discriminate H; injection H as <-; reflexivity|]).
  destruct Hin.
Qed.

Lemma lexeme_entry t w :
  lexeme t = Some w ->
  exists trx, In trx eskipTokenRxs /\ token trx = t /\ lang (tokenGroup trx) w.
Proof.
  intros H.
  assert (exists trx, In trx eskipTokenRxs /\ token trx = t) as (trx & Hin & <-).
  { unfold eskipTokenRxs. simpl.
    destruct t; try discriminate H;
      first [ solve [eexists; split; [do 0 right; left; reflexivity|reflexivity]]
            | solve [eexists; split; [do 1 right; left; reflexivity|reflexivity]]
            | solve [eexists; split; [do 2 right; left; reflexivity|reflexivity]]
            | solve [eexists; split; [do 3 right; left; reflexivity|reflexivity]]
            | solve [eexists; split; [do 4 right; left; reflexivity|reflexivity]]
            | solve [eexists; split; [do 6 right; left; reflexivity|reflexivity]]
            | solve [eexists; split; [do 8 right; left; reflexivity|reflexivity]]
            | solve [eexists; split; [do 9 right; left; reflexivity|reflexivity]] ]. }
  exists trx. split; [done|]. split; [done|].
  by apply literal_word_complete, fixed_entry.
Qed.

Lemma fixed_first t ch wt trx :
  lexeme t = Some (ch :: wt) -> In trx eskipTokenRxs ->
  firsts (OpStar skipBefore) ch = false /\
  (firsts (tokenGroup trx) ch = true ->
   token trx = t /\ literal_word (tokenGroup trx) = Some (ch :: wt)).
Proof.
  intros H Hin.
  destruct t; try discriminate H; vm_compute in H; injection H as <- <-;
    (split; [reflexivity|]);
    unfold eskipTokenRxs in Hin; simpl in Hin;
    repeat (destruct Hin as [<-|Hin];
            [vm_compute; intros H; first [discriminate H | split; reflexivity]|]);
    destruct Hin.
Qed.

Lemma lang_matches total r w :
  lang r w -> anchor_free r = true ->
  forall s c, exists c', matches total r (w ++ s) c s c'.
Proof.
  induction 1 as [|cl ch Hc| | |i r w Hl IH|r|r w1 w2 H1 IH1 H2 IH2|r w1 w2 H1 IH1 H2 IH2
                 |r|r w Hl IH|r1 r2 w1 w2 H1 IH1 H2 IH2|r1 r2 w Hl IH|r1 r2 w Hl IH];
    intros Ha s c; simpl in Ha; try discriminate Ha.
  - eexists. constructor.
  - eexists. by constructor.
  - destruct (IH Ha s c) as (c' & Hm). eexists. by constructor.
  - eexists. constructor.
  - destruct (IH1 Ha (w2 ++ s) c) as (c1 & Hm1).
    destruct (IH2 Ha s c1) as (c2 & Hm2).
    exists c2. rewrite <- app_assoc. by eapply matches_star_more.
  - destruct (IH1 Ha (w2 ++ s) c) as (c1 & Hm1).
    destruct (IH2 Ha s c1) as (c2 & Hm2).
    exists c2. rewrite <- app_assoc. by eapply matches_plus.
  - eexists. constructor.
  - destruct (IH Ha s c) as (c' & Hm). eexists. by apply matches_quest_one.
  - apply andb_true_iff in Ha as [Ha1 Ha2].
    destruct (IH1 Ha1 (w2 ++ s) c) as (c1 & Hm1).
    destruct (IH2 Ha2 s c1) as (c2 & Hm2).
    exists c2. rewrite <- app_assoc. by eapply matches_concat.
  - apply andb_true_iff in Ha as [Ha1 Ha2].
    destruct (IH Ha1 s c) as (c' & Hm). eexists. by apply matches_alt_l.
  - apply andb_true_iff in Ha as [Ha1 Ha2].
    destruct (IH Ha2 s c) as (c' & Hm). eexists. by apply matches_alt_r.
Qed.

Lemma alternatives_matches total r a s c s' c' :
  In a (alternatives r) -> matches total a s c s' c' -> matches total r s c s' c'.
Proof.
  induction r as [|cl| | |i r IH|r IH|r IH|r IH|r1 IH1 r2 IH2|r1 IH1 r2 IH2];
    simpl; intros Hin Hm; try (destruct Hin as [<-|[]]; exact Hm).
  destruct Hin as [<-|Hin]; [by apply matches_alt_l|].
  apply matches_alt_r. auto.
Qed.

Lemma tokens_anchor_free :
  forallb (fun trx => anchor_free (tokenGroup trx)) eskipTokenRxs = true.
Proof. vm_compute. reflexivity. Qed.

(** Whitespace and then a word of some entry's expression: the pattern
    matches. *)
Lemma find_token ws trx w rest :
  Forall (fun c => isSpace c = true) ws ->
  In trx eskipTokenRxs -> lang (tokenGroup trx) w ->
  FindStringSubmatch eskipRx (ws ++ w ++ rest) <> [].
Proof.
  intros Hws Hin Hl.
  assert (Ha : anchor_free (tokenGroup trx) = true).
  { pose proof tokens_anchor_free as H. rewrite forallb_forall in H. by apply H. }
  set (total := length (ws ++ w ++ rest)).
  set (c1 := <[1%nat := Some (total - length (ws ++ w ++ rest), total - length (w ++ rest))%nat]>
               (replicate 20 (@None (nat * nat)))).
  destruct (lang_matches total _ _ Hl Ha rest c1) as (c2 & Hm).
  eapply (match_at_complete eskipRx _ rest).
  rewrite eskip_structure.
  eapply matches_concat; [by constructor|].
  eapply matches_concat.
  { eapply matches_star_more; [|apply matches_star_nil].
    rewrite skipBefore_eq. apply matches_capture, matches_alt_l.
    by apply matches_star_class. }
  eapply matches_concat; [|apply matches_star_nil].
  apply matches_capture.
  eapply (alternatives_matches _ _ (OpCapture (groupIndex trx) (tokenGroup trx))).
  { rewrite tokens_alternatives. apply in_map_iff. by exists trx. }
  apply matches_capture. exact Hm.
Qed.
End TokenShapes.

(** A token with a fixed spelling is only ever returned with that
    spelling as its text: [&&], [->], [)], [:], [,], [(], [;] and
    [<shunt>]. *)
Theorem Lex_fixed_lexeme (input : gostring) (l l' : eskipLex) (lval lval' : eskipSymType)
    (t : Token.t) (w : gostring) :
  session input l ->
  Lex l lval = Some (l', lval', const t) ->
  lexeme t = Some w ->
  sym_token lval' = w /\ lastToken l' = w.
Proof.
  intros Hs HL Hw.
  destruct (Lex_returns_token _ _ _ _ _ (session_well_formed _ _ Hs) HL)
    as (trx & Hin & <- & Hl & Hlast).
  rewrite Hlast.
  pose proof (literal_word_sound _ _ _ (fixed_entry _ _ Hin Hw) Hl) as ->. done.
Qed.

Lemma Lex_fixed_lexeme_witness :
  exists l' lval',
    Lex (initial (bytes " <shunt> ;")) lval0 = Some (l', lval', const Token.shunt) /\
    sym_token lval' = bytes "<shunt>" /\ lastToken l' = bytes "<shunt>".
Proof.
  eexists _, _. split; [vm_compute; reflexivity|].
  eapply (Lex_fixed_lexeme (bytes " <shunt> ;") (initial (bytes " <shunt> ;")) _ lval0 _
                           Token.shunt).
  - apply session_new. reflexivity.
  - vm_compute. reflexivity.
  - reflexivity.
Defined.

(** [Lex] fails on no input that begins, after whitespace, with a word
    of one of the table's expressions: it returns a token, records no
    error and shortens the remaining input. *)
Theorem Lex_accepts_token (input : gostring) (l : eskipLex) (lval : eskipSymType)
    (ws w rest : gostring) (trx : tokenRx) :
  session input l ->
  code l = ws ++ w ++ rest ->
  Forall (fun c => isSpace c = true) ws ->
  trx ∈ tokenRxs l ->
  Lang.lang (tokenGroup trx) w ->
  exists l' lval' t,
    Lex l lval = Some (l', lval', const t) /\
    err l' = err l /\
    (length (code l') < length (code l))%nat.
Proof.
  intros Hs Hc Hws Hin Hl.
  pose proof (session_well_formed _ _ Hs) as Hwf.
  destruct Hwf as [Ht Hr]. rewrite Ht in Hin. apply list_elem_of_In in Hin.
  pose proof (find_token ws trx w rest Hws Hin Hl) as Hm. rewrite <- Hc in Hm.
  destruct (Lex_on_match l lval (conj Ht Hr) Hm)
    as (k & trx' & w0 & w' & w3 & rest' & Hk & Hcode & Hw' & _ & _ & _ & HL).
  eexists _, _, _. split; [exact HL|]. simpl. split; [done|].
  rewrite Hcode, !length_app. destruct w'; [done|]. simpl. lia.
Qed.

Lemma Lex_accepts_token_witness :
  exists l' lval' t,
    Lex (initial (bytes "  :x")) lval0 = Some (l', lval', const t) /\
    err l' = err (initial (bytes "  :x")) /\
    (length (code l') < length (code (initial (bytes "  :x"))))%nat.
Proof.
  apply (Lex_accepts_token (bytes "  :x") (initial (bytes "  :x")) lval0
           (bytes "  ") (bytes ":") (bytes "x")
           {| token := Token.colon; expression := bytes ":"; captureGroups := 0;
              matchIndex := 6 |}).
  - apply session_new. reflexivity.
  - reflexivity.
  - repeat constructor.
  - apply list_elem_of_In. vm_compute. do 3 right. left. reflexivity.
  - apply literal_word_complete. reflexivity.
Defined.

(** Where the remaining input begins with the spelling of a token that
    has a fixed one, [Lex] returns this token with this text; what it
    consumes beyond the spelling is skipped text. *)
Theorem Lex_fixed_token (input : gostring) (l : eskipLex) (lval : eskipSymType)
    (t : Token.t) (w rest : gostring) :
  session input l ->
  lexeme t = Some w ->
  code l = w ++ rest ->
  exists l' w3,
    Lex l lval = Some (l', {| sym_token := w |}, const t) /\
    lastToken l' = w /\ lastRaw l' = w ++ w3 /\
    rest = w3 ++ code l' /\
    Lang.lang (regexp.OpStar skipAfter) w3.
Proof.
  intros Hs Hw Hc.
  pose proof (session_well_formed _ _ Hs) as Hwf.
  destruct (lexeme_entry _ _ Hw) as (trx & Hin & Ht & Hl).
  pose proof (find_token [] trx w rest (Forall_nil_2 _) Hin Hl) as Hm.
  simpl in Hm. rewrite <- Hc in Hm.
  destruct (Lex_on_match l lval Hwf Hm)
    as (k & trx' & w0 & w' & w3 & rest' & Hk & Hcode & Hw' & Hl0 & Hl' & Hl3 & HL).
  assert (Hin' : In trx' eskipTokenRxs).
  { apply list_elem_of_In, list_elem_of_lookup. eauto. }
  destruct w as [|ch wt]; [by destruct t|].
  destruct (fixed_first _ _ _ _ Hw Hin') as [Hskip Hfirst].
  rewrite Hc in Hcode.
  destruct w0 as [|c0 w0].
  - destruct w' as [|c' wt']; [done|].
    simpl in Hcode. injection Hcode as Hch Htail. subst c'.
    destruct Hfirst as [Htok Hlw].
    { eapply lang_firsts; [exact Hl'|reflexivity]. }
    pose proof (literal_word_sound _ _ _ Hlw Hl') as Heq.
    injection Heq as ->.
    apply app_inv_head in Htail. subst rest.
    eexists _, w3. split; [rewrite HL, Htok; reflexivity|]. simpl. done.
  - simpl in Hcode. injection Hcode as Hch _. subst c0.
    rewrite (lang_firsts _ _ Hl0 ch w0 eq_refl) in Hskip. discriminate.
Qed.

Lemma Lex_fixed_token_witness :
  exists l' w3,
    Lex (initial (bytes "-> b")) lval0 = Some (l', {| sym_token := bytes "->" |}, const Token.arrow) /\
    lastToken l' = bytes "->" /\ lastRaw l' = bytes "->" ++ w3 /\
    bytes " b" = w3 ++ code l' /\
    Lang.lang (regexp.OpStar skipAfter) w3.
Proof.
  apply (Lex_fixed_token (bytes "-> b") (initial (bytes "-> b")) lval0 Token.arrow
           (bytes "->") (bytes " b")).
  - apply session_new. reflexivity.
  - reflexivity.
  - reflexivity.
Defined.

Section LiteralShapes.
Import regexp Lang.

Lemma symbol_entry trx :
  In trx eskipTokenRxs -> token trx = Token.symbol -> tokenGroup trx = symbolPattern.
Proof.
  intros Hin Ht. unfold eskipTokenRxs in Hin. simpl in Hin.
  repeat (destruct Hin as [<-|Hin]; [try discriminate Ht; reflexivity|]).
  destruct Hin.
Qed.

Lemma symbol_start c :
  firsts symbolPattern c = true -> isLetter c || Ascii.eqb c "_" = true.
Proof.
  destruct c as [[|] [|] [|] [|] [|] [|] [|] [|]]; vm_compute; congruence.
Qed.

Lemma literal_entry trx :
  In trx eskipTokenRxs ->
  (token trx = Token.regexpliteral -> tokenGroup trx = literalPattern 11 slash slash) /\
  (token trx = Token.stringliteral ->
   tokenGroup trx = literalPattern 15 dquote dquote \/
   tokenGroup trx = literalPattern 17 backtick dquote).
Proof.
  intros Hin. unfold eskipTokenRxs in Hin. simpl in Hin.
  repeat (destruct Hin as [<-|Hin];
          [split; intros Ht; try discriminate Ht;
           first [reflexivity | left; reflexivity | right; reflexivity]|]).
  destruct Hin.
Qed.

Lemma class_excludes x c : class_matches (Ranges true [(x, x)]) c = true -> c <> x.
Proof.
  intros H ->. unfold class_matches, in_range in H. simpl in H.
  by rewrite N.leb_refl in H.
Qed.

(** One repetition inside a delimited literal. *)
Lemma literal_unit i q x u :
  lang (OpCapture i
          (OpAlternate
             (OpConcat (OpCharClass (Literal backslash)) (OpCharClass (Literal backslash)))
             (OpAlternate
                (OpConcat (OpCharClass (Literal backslash)) (OpCharClass (Literal q)))
                (OpCharClass (Ranges true [(x, x)]))))) u ->
  u = [backslash; backslash] \/ u = [backslash; q] \/ exists c, u = [c] /\ c <> x.
Proof.
  intros H.
  inversion H as [| | | |? ? ? H1| | | | | | | |]; subst. clear H.
  inversion H1 as [| | | | | | | | | | |? ? ? H2|? ? ? H2]; subst; clear H1.
  - left. inversion H2 as [| | | | | | | | | |? ? ? ? Ha Hb| |]; subst.
    apply lang_literal in Ha, Hb. by subst.
  - inversion H2 as [| | | | | | | | | | |? ? ? H3|? ? ? H3]; subst; clear H2.
    + right. left. inversion H3 as [| | | | | | | | | |? ? ? ? Ha Hb| |]; subst.
      apply lang_literal in Ha, Hb. by subst.
    + right. right. inversion H3 as [|? c Hc| | | | | | | | | | |]; subst.
      exists c. split; [done|]. by apply class_excludes.
Qed.

Lemma delimiter_escaped_mono q s :
  delimiter_escaped q false s = true -> delimiter_escaped q true s = true.
Proof.
  destruct s as [|c s]; [done|]. cbn [delimiter_escaped].
  intros H. apply andb_true_iff in H as [_ H]. rewrite H. by rewrite orb_true_r.
Qed.

Lemma literal_body_escaped i q body :
  q <> backslash ->
  lang (OpStar
          (OpCapture i
             (OpAlternate
                (OpConcat (OpCharClass (Literal backslash)) (OpCharClass (Literal backslash)))
                (OpAlternate
                   (OpConcat (OpCharClass (Literal backslash)) (OpCharClass (Literal q)))
                   (OpCharClass (Ranges true [(q, q)])))))) body ->
  delimiter_escaped q false body = true.
Proof.
  intros Hq H.
  remember (OpStar _) as r eqn:Hr. revert Hr.
  induction H as [| | | | |r'|r' w1 w2 H1 _ H2 IH2| | | | | |]; intros Hr; try discriminate Hr.
  - reflexivity.
  - injection Hr as ->. specialize (IH2 eq_refl).
    assert (Hqb : Ascii.eqb q backslash = false) by by apply Ascii.eqb_neq.
    assert (Hbq : Ascii.eqb backslash q = false) by (apply Ascii.eqb_neq; congruence).
    apply literal_unit in H1 as [->|[->|(c & -> & Hc)]].
    + cbn [app delimiter_escaped]. rewrite Hbq, Ascii.eqb_refl.
      cbn [negb orb andb]. by apply delimiter_escaped_mono.
    + cbn [app delimiter_escaped]. rewrite Hbq, Hqb, Ascii.eqb_refl.
      by rewrite orb_true_r.
    + cbn [app delimiter_escaped]. apply Ascii.eqb_neq in Hc. rewrite Hc.
      cbn [negb orb andb].
      destruct (Ascii.eqb c backslash); [by apply delimiter_escaped_mono|done].
Qed.

Lemma literal_body_excludes i q x body :
  x <> backslash -> x <> q ->
  lang (OpStar
          (OpCapture i
             (OpAlternate
                (OpConcat (OpCharClass (Literal backslash)) (OpCharClass (Literal backslash)))
                (OpAlternate
                   (OpConcat (OpCharClass (Literal backslash)) (OpCharClass (Literal q)))
                   (OpCharClass (Ranges true [(x, x)])))))) body ->
  x ∉ body.
Proof.
  intros Hx Hxq H.
  remember (OpStar _) as r eqn:Hr. revert Hr.
  induction H as [| | | | |r'|r' w1 w2 H1 _ H2 IH2| | | | | |]; intros Hr; try discriminate Hr.
  - apply not_elem_of_nil.
  - injection Hr as ->. specialize (IH2 eq_refl).
    apply not_elem_of_app. split; [|done].
    apply literal_unit in H1 as [->|[->|(c & -> & Hc)]];
      rewrite ?not_elem_of_cons; repeat split; auto using not_elem_of_nil.
Qed.
End LiteralShapes.

(** The text of a symbol begins with a letter or an underscore and goes
    on with letters, digits and underscores only. *)
Theorem Lex_symbol_shape (input : gostring) (l l' : eskipLex) (lval lval' : eskipSymType) :
  session input l ->
  Lex l lval = Some (l', lval', const Token.symbol) ->
  exists c w,
    sym_token lval' = c :: w /\
    isLetter c || Ascii.eqb c "_" = true /\
    Forall (fun d => isWordChar d = true) w.
Proof.
  intros Hs HL.
  destruct (Lex_returns_token _ _ _ _ _ (session_well_formed _ _ Hs) HL)
    as (trx & Hin & Ht & Hl & _).
  rewrite (symbol_entry _ Hin Ht) in Hl.
  pose proof (lang_firsts _ _ Hl) as Hf.
  inversion Hl as [| | | | | | | | | |? ? w1 w2 Ha Hb| |]; subst.
  inversion Ha as [|? c Hc| | | | | | | | | | |]; subst.
  exists c, w2. split; [by symmetry|]. split.
  - apply symbol_start. by eapply Hf.
  - by apply lang_star_class in Hb.
Qed.

Lemma Lex_symbol_shape_witness :
  exists c w,
    bytes "Path_1" = c :: w /\
    isLetter c || Ascii.eqb c "_" = true /\
    Forall (fun d => isWordChar d = true) w.
Proof.
  eapply (Lex_symbol_shape (bytes "Path_1(") (initial (bytes "Path_1(")) _ lval0
                           {| sym_token := bytes "Path_1" |}).
  - apply session_new. reflexivity.
  - vm_compute. reflexivity.
Defined.

(** Inside the delimiters of a regexp literal every slash comes directly
    after a backslash, and inside those of a double-quoted string every
    double quote does. A backtick string is different: the pattern
    excludes the double quote from it, not the backtick, so that its text
    between the delimiters has no double quote at all. *)
Theorem Lex_literal_delimiters (input : gostring) (l l' : eskipLex) (lval lval' : eskipSymType)
    (t : Token.t) :
  session input l ->
  Lex l lval = Some (l', lval', const t) ->
  (t = Token.regexpliteral ->
   exists body,
     sym_token lval' = slash :: body ++ [slash] /\
     delimiter_escaped slash false body = true) /\
  (t = Token.stringliteral ->
   exists body,
     (sym_token lval' = dquote :: body ++ [dquote] /\
      delimiter_escaped dquote false body = true) \/
     (sym_token lval' = backtick :: body ++ [backtick] /\ dquote ∉ body)).
Proof.
  intros Hs HL.
  destruct (Lex_returns_token _ _ _ _ _ (session_well_formed _ _ Hs) HL)
    as (trx & Hin & Ht & Hl & _).
  destruct (literal_entry _ Hin) as [Hre Hstr]. rewrite Ht in Hre, Hstr.
  split; intros ->.
  - rewrite (Hre eq_refl) in Hl. apply lang_delimited in Hl as (body & -> & Hb).
    exists body. split; [done|].
    eapply literal_body_escaped; [|exact Hb].
    intros E. vm_compute in E. discriminate E.
  - destruct (Hstr eq_refl) as [E|E]; rewrite E in Hl;
      apply lang_delimited in Hl as (body & -> & Hb); exists body.
    + left. split; [done|].
      eapply literal_body_escaped; [|exact Hb].
      intros E'. vm_compute in E'. discriminate E'.
    + right. split; [done|].
      eapply literal_body_excludes; [| |exact Hb];
        intros E'; vm_compute in E'; discriminate E'.
Qed.

Lemma Lex_literal_delimiters_witness :
  (Token.regexpliteral = Token.regexpliteral ->
   exists body,
     bytes "/a\/b/" = slash :: body ++ [slash] /\
     delimiter_escaped slash false body = true) /\
  (Token.regexpliteral = Token.stringliteral ->
   exists body,
     (bytes "/a\/b/" = dquote :: body ++ [dquote] /\
      delimiter_escaped dquote false body = true) \/
     (bytes "/a\/b/" = backtick :: body ++ [backtick] /\ dquote ∉ body)).
Proof.
  eapply (Lex_literal_delimiters (bytes "/a\/b/ x") (initial (bytes "/a\/b/ x")) _ lval0
                                 {| sym_token := bytes "/a\/b/" |} Token.regexpliteral).
  - apply session_new. reflexivity.
  - vm_compute. reflexivity.
Defined.

(** ** Further properties of the filter chain *)

Section ChainMore.
Import chain.
Context {W : Type}.

Lemma Request_loop_not_served i0 (fs : list (Filter W)) ctx :
  Served (fst (Request_loop i0 fs ctx)) = false ->
  Request_loop i0 fs ctx = (allRequests fs ctx, indexes i0 (length fs)).
Proof.
  revert i0 ctx. induction fs as [|f rest IH]; intros i0 ctx H; [done|].
  simpl in *. destruct (Served (Request f ctx)) eqn:E.
  - simpl in H. congruence.
  - specialize (IH (i0 + 1) (Request f ctx)).
    destruct (Request_loop (i0 + 1) rest (Request f ctx)) as [c r].
    simpl in H. specialize (IH H). injection IH as -> ->.
    by rewrite indexes_S.
Qed.

Lemma Request_loop_first_served i0 (fs : list (Filter W)) ctx n :
  (n < length fs)%nat ->
  (forall k, (k < n)%nat -> Served (allRequests (take (S k) fs) ctx) = false) ->
  Served (allRequests (take (S n) fs) ctx) = true ->
  Request_loop i0 fs ctx =
    (set_bag (allRequests (take (S n) fs) ctx) exitIndexKey (Int (i0 + Z.of_nat n)),
     indexes i0 (S n)).
Proof.
  revert i0 fs ctx. induction n as [|n IH]; intros i0 fs ctx Hn Hbefore Hserved.
  - destruct fs as [|f rest]; [simpl in Hn; lia|].
    simpl in *. unfold allRequests in Hserved. simpl in Hserved.
    rewrite Hserved. unfold allRequests. simpl.
    rewrite Z.add_0_r. unfold indexes. simpl. by rewrite Z.add_0_r.
  - destruct fs as [|f rest]; [simpl in Hn; lia|].
    assert (E : Served (Request f ctx) = false).
    { apply (Hbefore O). lia. }
    cbn [Request_loop]. rewrite E.
    rewrite (IH (i0 + 1) rest (Request f ctx)).
    + rewrite (indexes_S i0 (S n)). do 3 f_equal. lia.
    + simpl in Hn. lia.
    + intros k Hk. apply (Hbefore (S k)). lia.
    + exact Hserved.
Qed.

Lemma Response_loop_all i0 (fs : list (Filter W)) ctx :
  Response_loop i0 (Some <$> fs) ctx = Some (allResponses fs ctx, indexes i0 (length fs)).
Proof.
  revert i0 ctx. induction fs as [|f rest IH]; intros i0 ctx; [done|].
  cbn [fmap list_fmap Response_loop length].
  change (list_fmap _ _ Some rest) with (Some <$> rest).
  rewrite IH, (indexes_S i0 (length rest)). reflexivity.
Qed.


(** When the request phase of a chain ends with no response served, it
    has run the request hook of every filter, in order, each on the
    context the one before left, and has itself written nothing to the
    state bag. *)
Theorem chain_Request_not_served (fs : list (Filter W)) (ctx : FilterContext W) :
  Served (fst (chain_Request fs ctx)) = false ->
  chain_Request fs ctx = (allRequests fs ctx, indexes 0 (length fs)).
Proof. apply Request_loop_not_served. Qed.

(** The request phase stops at the first filter after whose request hook
    the response is served: the hooks of the filters up to it have run,
    those of the later filters have not, and its index is written to the
    state bag after its hook has returned. Whether the response was
    served already when the chain was entered plays no part: the hook of
    the first filter runs in any case. *)
Theorem chain_Request_first_served (fs : list (Filter W)) (ctx : FilterContext W) (n : nat) :
  (n < length fs)%nat ->
  (forall k, (k < n)%nat -> Served (allRequests (take (S k) fs) ctx) = false) ->
  Served (allRequests (take (S n) fs) ctx) = true ->
  chain_Request fs ctx =
    (set_bag (allRequests (take (S n) fs) ctx) exitIndexKey (Int (Z.of_nat n)),
     indexes 0 (S n)).
Proof.
  intros Hn Hb Hs. unfold chain_Request.
  by rewrite (Request_loop_first_served 0 fs ctx n Hn Hb Hs).
Qed.

(** With no exit index in the state bag, the response phase runs the
    response hook of every filter, from the first to the last, each on
    the context the one before left. *)
Theorem chain_Response_without_index (fs : list (Filter W)) (spare : list (option (Filter W)))
    (ctx : FilterContext W) :
  StateBag ctx !! exitIndexKey = None ->
  chain_Response fs spare ctx = Some (allResponses fs ctx, indexes 0 (length fs)).
Proof.
  intros H. unfold chain_Response. rewrite H. cbn [mbind option_bind].
  by rewrite Response_loop_all.
Qed.

(** With an exit index [i] in range in the state bag at entry, the
    response phase runs the response hooks of the first [i] filters, from
    the first on, and of no other; what the hooks do to the state bag
    meanwhile does not change this. *)
Theorem chain_Response_with_index (fs : list (Filter W)) (spare : list (option (Filter W)))
    (ctx : FilterContext W) (i : Z) :
  StateBag ctx !! exitIndexKey = Some (Int i) ->
  0 <= i <= len_list fs ->
  chain_Response fs spare ctx =
    Some (allResponses (take (Z.to_nat i) fs) ctx, indexes 0 (Z.to_nat i)).
Proof.
  intros H Hi. unfold chain_Response. rewrite H. unfold len_list in *.
  replace (0 <=? i) with true by (symmetry; apply Z.leb_le; lia).
  replace (i <=? Z.of_nat (length fs) + Z.of_nat (length spare)) with true
    by (symmetry; apply Z.leb_le; lia).
  cbn [andb mbind option_bind].
  rewrite take_app_le by (rewrite length_fmap; lia).
  rewrite <- fmap_take, Response_loop_all, length_take. do 3 f_equal. lia.
Qed.

(** An exit index above the number of filters is no panic as long as it
    is within the capacity of the slice: the response phase then runs,
    after the hooks of all filters of the chain, those of the filters the
    backing array holds behind them, up to the index. *)
Theorem chain_Response_beyond_length (fs more : list (Filter W))
    (spare : list (option (Filter W))) (ctx : FilterContext W) (i : Z) :
  StateBag ctx !! exitIndexKey = Some (Int i) ->
  len_list fs <= i <= len_list fs + len_list spare ->
  take (Z.to_nat i - length fs) spare = Some <$> more ->
  chain_Response fs spare ctx =
    Some (allResponses (fs ++ more) ctx, indexes 0 (Z.to_nat i)).
Proof.
  intros H Hi Hmore. unfold chain_Response. rewrite H. unfold len_list in *.
  replace (0 <=? i) with true by (symmetry; apply Z.leb_le; lia).
  replace (i <=? Z.of_nat (length fs) + Z.of_nat (length spare)) with true
    by (symmetry; apply Z.leb_le; lia).
  cbn [andb mbind option_bind].
  rewrite take_app_ge by (rewrite length_fmap; lia).
  rewrite length_fmap, Hmore, <- fmap_app, Response_loop_all. do 3 f_equal.
  apply (f_equal length) in Hmore. rewrite length_take, length_fmap in Hmore.
  rewrite length_app. lia.
Qed.

End ChainMore.

Lemma chain_Request_not_served_witness :
  chain.chain_Request [passing; passing] emptyContext =
    (allRequests [passing; passing] emptyContext, indexes 0 (length [passing; passing])).
Proof. apply (chain_Request_not_served [passing; passing] emptyContext). reflexivity. Defined.

Lemma chain_Request_first_served_witness :
  chain.chain_Request [passing; serving; passing] emptyContext =
    (chain.set_bag (allRequests (take 2 [passing; serving; passing]) emptyContext)
                   chain.exitIndexKey (chain.Int (Z.of_nat 1)),
     indexes 0 2).
Proof.
  apply (chain_Request_first_served [passing; serving; passing] emptyContext 1).
  - simpl. lia.
  - intros k Hk. assert (k = O) as -> by lia. reflexivity.
  - reflexivity.
Defined.

Lemma chain_Response_without_index_witness :
  chain.chain_Response [passing; serving] [] emptyContext =
    Some (allResponses [passing; serving] emptyContext, indexes 0 (length [passing; serving])).
Proof.
  apply (chain_Response_without_index [passing; serving] [] emptyContext). reflexivity.
Defined.

Lemma chain_Response_with_index_witness :
  chain.chain_Response [passing; serving; passing] [None]
                       (chain.set_bag emptyContext chain.exitIndexKey (chain.Int 1)) =
    Some (allResponses (take (Z.to_nat 1) [passing; serving; passing])
                       (chain.set_bag emptyContext chain.exitIndexKey (chain.Int 1)),
          indexes 0 (Z.to_nat 1)).
Proof.
  apply (chain_Response_with_index [passing; serving; passing] [None]
           (chain.set_bag emptyContext chain.exitIndexKey (chain.Int 1)) 1).
  - reflexivity.
  - unfold len_list. simpl. lia.
Defined.

Lemma chain_Response_beyond_length_witness :
  chain.chain_Response [passing] [Some serving; None]
                       (chain.set_bag emptyContext chain.exitIndexKey (chain.Int 2)) =
    Some (allResponses ([passing] ++ [serving])
                       (chain.set_bag emptyContext chain.exitIndexKey (chain.Int 2)),
          indexes 0 (Z.to_nat 2)).
Proof.
  apply (chain_Response_beyond_length [passing] [serving] [Some serving; None]
           (chain.set_bag emptyContext chain.exitIndexKey (chain.Int 2)) 2).
  - reflexivity.
  - unfold len_list. simpl. lia.
  - reflexivity.
Defined.
